(** * Planetary agent routing console (FastAPI backend)

    A shallow embedding of [.github/workflows/main.py]: the static
    [planetary_agents] table, the four POST handlers, the GET handler that
    lists the table, and the three Python built-ins the handlers rely on
    ([dict.get], [str.replace], [str.strip]).

    Python [str] values are sequences of Unicode code points, so a string is
    a list of code points here; a handler is a small program tree whose
    nodes are the two effects the module performs ([print] and
    [requests.post]) and the exceptions its calls can raise. *)

From Stdlib Require Import Ascii String.
From Stdlib Require Import List NArith ZArith QArith Bool Lia.
From Stdlib Require Import Floats.SpecFloat.
Import ListNotations.
Close Scope Q_scope.

Set Implicit Arguments.
Set Warnings "-register-all".

(** ** Python strings *)

Module PyStr.

(** A code point. *)
Definition char : Type := N.

(** A Python [str]. *)
Definition str : Type := list char.

(** An ASCII literal of the source, as a [str]. *)
Definition lit (s : String.string) : str :=
  map N_of_ascii (String.list_ascii_of_string s).
Arguments lit s%_string.

Fixpoint eqb (a b : str) : bool :=
  match a, b with
  | [], [] => true
  | x :: a', y :: b' => N.eqb x y && eqb a' b'
  | _, _ => false
  end.

(** [s.startswith(p)]. *)
Fixpoint starts_with (p s : str) : bool :=
  match p, s with
  | [], _ => true
  | _ :: _, [] => false
  | x :: p', y :: s' => N.eqb x y && starts_with p' s'
  end.

(** [p in s]. *)
Fixpoint contains (p s : str) : bool :=
  starts_with p s ||
  match s with
  | [] => false
  | _ :: s' => contains p s'
  end.

(** The scan of [str.replace] for a non-empty [old]: left to right, an
    occurrence of [old] that starts at the current position is replaced by
    [new] and the scan resumes after it (the [skip] remaining characters
    of the occurrence are dropped); any other character is copied. *)
Fixpoint replace_from (old new : str) (skip : nat) (s : str) : str :=
  match s with
  | [] => []
  | c :: s' =>
      match skip with
      | S k => replace_from old new k s'
      | O =>
          if starts_with old s
          then new ++ replace_from old new (length old - 1) s'
          else c :: replace_from old new O s'
      end
  end.

(** [s.replace(old, new)]: every non-overlapping occurrence, leftmost
    first.  With an empty [old] Python puts [new] before every character
    and at the end. *)
Definition replace (old new s : str) : str :=
  match old with
  | [] => new ++ flat_map (fun c => c :: new) s
  | _ :: _ => replace_from old new O s
  end.

(** [c.isspace()] for one code point: the White_Space code points and the
    four information separators, as [str.strip()] without argument uses
    it. *)
Definition is_space (c : char) : bool :=
  (((0x09 <=? c) && (c <=? 0x0D)) || ((0x1C <=? c) && (c <=? 0x20))
  || (c =? 0x85) || (c =? 0xA0) || (c =? 0x1680)
  || ((0x2000 <=? c) && (c <=? 0x200A))
  || (c =? 0x2028) || (c =? 0x2029) || (c =? 0x202F) || (c =? 0x205F)
  || (c =? 0x3000))%N.

Fixpoint drop_spaces (s : str) : str :=
  match s with
  | [] => []
  | c :: s' => if is_space c then drop_spaces s' else s
  end.

(** [s.lstrip()]. *)
Definition lstrip (s : str) : str := drop_spaces s.

(** [s.rstrip()]. *)
Definition rstrip (s : str) : str := rev (drop_spaces (rev s)).

(** [s.strip()]: leading whitespace is skipped first, then trailing
    whitespace of what is left. *)
Definition strip (s : str) : str := rstrip (lstrip s).

(** A surrogate code point: a [str] can hold one (the JSON escape of a
    lone surrogate is decoded to it), no UTF-8 text can. *)
Definition is_surrogate (c : char) : bool :=
  ((0xD800 <=? c) && (c <=? 0xDFFF))%N.

(** [s.encode("utf-8")] succeeds. *)
Definition utf8_encodable (s : str) : bool :=
  forallb (fun c => negb (is_surrogate c)) s.

End PyStr.

Import PyStr.

(** ** Python dicts and JSON values *)

(** A dict with string keys, in insertion order. *)
Definition dict (V : Type) : Type := list (str * V).

(** [d[k]] when present. *)
Fixpoint dict_lookup {V : Type} (d : dict V) (k : str) : option V :=
  match d with
  | [] => None
  | (k', v) :: d' => if PyStr.eqb k' k then Some v else dict_lookup d' k
  end.

(** [d.get(k, default)]. *)
Definition dict_get {V : Type} (d : dict V) (k : str) (default : V) : V :=
  match dict_lookup d k with
  | Some v => v
  | None => default
  end.

Definition keys {V : Type} (d : dict V) : list str := map fst d.

(** A JSON-compatible Python value. *)
Inductive json : Type :=
| JNone
| JBool (b : bool)
| JInt (z : Z)
| JFloat (f : spec_float)
| JStr (s : str)
| JList (l : list json)
| JDict (d : list (str * json)).

(** The exact rational a finite binary float stands for. *)
Definition float_value (f : spec_float) : option Q :=
  match f with
  | S754_zero _ => Some 0%Q
  | S754_finite sign m e =>
      let n := if sign then Zneg m else Zpos m in
      Some (Qred (match e with
                  | Z0 => n # 1
                  | Zpos p => (n * 2 ^ Zpos p) # 1
                  | Zneg p => n # (2 ^ p)
                  end))
  | S754_infinity _ | S754_nan => None
  end.

(** The binary64 values of the literals [0.5] and [0.75]. *)
Definition float_0_5 : spec_float := S754_finite false 4503599627370496 (-53).
Definition float_0_75 : spec_float := S754_finite false 6755399441055744 (-53).

(** ** The effects of a handler *)

Module requests.

(** What [requests.post(url, headers=..., json=...)] sends. *)
Record Request : Type :=
  { url : str; headers : dict str; json_body : json }.

(** A [requests.Response]; the module reads its [status_code] only. *)
Record Response : Type := { status_code : Z }.

(** What [requests.post] raises when no response arrives (connection
    error, timeout, ...). *)
Inductive RequestException : Type :=
| ConnectionError
| ReadTimeout
| OtherRequestException (what : str).

End requests.

(** The exceptions the calls of the module can raise. *)
Inductive exn : Type :=
| RequestException (e : requests.RequestException)
| UnicodeEncodeError.

(** A call either returns or raises. *)
Inductive outcome (A : Type) : Type :=
| Returned (a : A)
| Raised (e : exn).
Arguments Raised {A} e.

(** A handler body: it returns, raises, prints a line and goes on, or
    posts a request and goes on with the response.  No handler catches an
    exception, so a [print] or a [requests.post] that raises ends the
    handler (see [run]). *)
Inductive prog (A : Type) : Type :=
| Ret (a : A)
| Raise (e : exn)
| PrintLine (line : str) (k : prog A)
| Post (rq : requests.Request) (k : requests.Response -> prog A).
Arguments Ret {A} a.
Arguments Raise {A} e.
Arguments PrintLine {A} line k.
Arguments Post {A} rq k.

Fixpoint bind {A B : Type} (p : prog A) (f : A -> prog B) : prog B :=
  match p with
  | Ret a => f a
  | Raise e => Raise e
  | PrintLine line k => PrintLine line (bind k f)
  | Post rq k => Post rq (fun r => bind (k r) f)
  end.

Declare Scope prog_scope.
Delimit Scope prog_scope with prog.
Bind Scope prog_scope with prog.
Notation "x <- p ;; q" := (bind p (fun x => q))
  (at level 61, p at next level, right associativity) : prog_scope.
Notation "p ;; q" := (bind p (fun _ => q))
  (at level 61, right associativity) : prog_scope.

(** [print(line)]. *)
Definition print (line : str) : prog unit := PrintLine line (Ret tt).

(** [requests.post(url, headers=headers, json=payload)]. *)
Definition requests_post (url : str) (headers : dict str) (payload : json)
  : prog requests.Response :=
  Post {| requests.url := url; requests.headers := headers;
          requests.json_body := payload |} Ret.

(** Standard output and the network as a process has them: the texts
    written to standard output so far (one per [print] that succeeded),
    the characters the encoding and error handler of standard output can
    write, and the requests that left for the speech provider. *)
Record world : Type :=
  { stdout : list str;
    outbox : list requests.Request;
    can_encode : char -> bool }.

(** Standard output can write the whole text. *)
Definition encodable (w : world) (line : str) : bool :=
  forallb (can_encode w) line.

(** The provider and the transport: the answer to the [n]-th request of
    the process. *)
Definition network : Type :=
  nat -> requests.Request -> outcome requests.Response.

(** The text of a [print] is encoded whole before anything is written:
    when a character cannot be encoded, [UnicodeEncodeError] is raised and
    standard output is left as it was.  The newline that ends a [print] is
    not recorded: every encoding can write it. *)
Fixpoint run {A : Type} (net : network) (p : prog A) (w : world)
  : outcome A * world :=
  match p with
  | Ret a => (Returned a, w)
  | Raise e => (Raised e, w)
  | PrintLine line k =>
      if encodable w line
      then run net k {| stdout := stdout w ++ [line]; outbox := outbox w;
                        can_encode := can_encode w |}
      else (Raised UnicodeEncodeError, w)
  | Post rq k =>
      let w' := {| stdout := stdout w; outbox := outbox w ++ [rq];
                   can_encode := can_encode w |} in
      match net (length (outbox w)) rq with
      | Returned response => run net (k response) w'
      | Raised e => (Raised e, w')
      end
  end.

(** ** The module [main.py] *)

(** *** Config *)

Definition ELEVENLABS_API_KEY : str := lit "your-elevenlabs-api-key".
Definition ELEVENLABS_VOICE_ID : str := lit "your-voice-id".

Definition planetary_agents : dict str :=
  [ (lit "Mercury", lit "Push2Repo");
    (lit "Mars", lit "NotebookLM");
    (lit "Saturn", lit "NLP2CODE");
    (lit "Jupiter", lit "CoManDeck");
    (lit "Neptune", lit "SLAMAR");
    (lit "Sedna", lit "HeylloGen") ].

(** *** Models *)

Module NLPRequest.
Record t : Type := { instruction : str; agent : str }.
End NLPRequest.

Module AvatarRequest.
Record t : Type := { action : str; agent : str }.
End AvatarRequest.

Module TTSRequest.
Record t : Type := { text : str; agent : str }.
End TTSRequest.

Module WebhookPayload.
Record t : Type := { event : str; data : dict json; agent : str }.
End WebhookPayload.

(** A [fastapi.responses.JSONResponse] once built. *)
Record JSONResponse : Type := { content : dict str; status_code : Z }.

(** [JSONResponse(content=..., status_code=...)]: the constructor renders
    the body at once, [json.dumps(content, ensure_ascii=False, ...)]
    encoded as UTF-8, and so raises when a key or a value holds a
    surrogate. *)
Definition JSONResponse_init (content : dict str) (status_code : Z)
  : prog JSONResponse :=
  if forallb (fun kv => utf8_encodable (fst kv) && utf8_encodable (snd kv))
       content
  then Ret {| content := content; status_code := status_code |}
  else Raise UnicodeEncodeError.

(** *** Routes *)

Local Open Scope prog_scope.

(** The service an agent is routed to: the expression
    [planetary_agents.get(agent, "CygNus")] that opens every POST handler
    (the specification calls it resolveService). *)
Definition resolveService (agent : str) : str :=
  dict_get planetary_agents agent (lit "CygNus").

(** [POST /api/nlp2code] *)
Definition parse_instruction (request : NLPRequest.t) : prog (dict str) :=
  let instruction := NLPRequest.instruction request in
  let agent := NLPRequest.agent request in
  let routed_service := dict_get planetary_agents agent (lit "CygNus") in
  let parsed :=
    lit "[" ++ routed_service ++ lit "] "
    ++ strip (replace (lit "Animate avatar to") (lit "[ACTION]") instruction) in
  Ret [ (lit "parsed", parsed); (lit "agent", agent);
        (lit "service", routed_service) ].

(** [POST /api/avatar] *)
Definition control_avatar (request : AvatarRequest.t) : prog (dict str) :=
  let agent := AvatarRequest.agent request in
  let action := AvatarRequest.action request in
  let routed_service := dict_get planetary_agents agent (lit "CygNus") in
  print (lit "Triggering avatar action via " ++ routed_service
         ++ lit ": " ++ action) ;;
  Ret [ (lit "status", lit "Avatar action routed"); (lit "agent", agent);
        (lit "service", routed_service) ].

(** [POST /api/tts] *)
Definition generate_tts (request : TTSRequest.t) : prog JSONResponse :=
  let agent := TTSRequest.agent request in
  let routed_service := dict_get planetary_agents agent (lit "CygNus") in
  let url :=
    lit "https://api.elevenlabs.io/v1/text-to-speech/" ++ ELEVENLABS_VOICE_ID in
  let headers :=
    [ (lit "xi-api-key", ELEVENLABS_API_KEY);
      (lit "Content-Type", lit "application/json") ] in
  let payload :=
    JDict [ (lit "text", JStr (TTSRequest.text request));
            (lit "voice_settings",
             JDict [ (lit "stability", JFloat float_0_5);
                     (lit "similarity_boost", JFloat float_0_75) ]) ] in
  response <- requests_post url headers payload ;;
  if (requests.status_code response =? 200)%Z
  then JSONResponse_init [ (lit "status", lit "TTS generated");
                           (lit "agent", agent);
                           (lit "service", routed_service) ] 200
  else JSONResponse_init [ (lit "error", lit "TTS failed");
                           (lit "agent", agent);
                           (lit "service", routed_service) ] 500.

Section Webhook.

(** [str(d)] of a dict, as the f-string of the second diagnostic applies
    it to [request.data]: a built-in of the language, taken as a
    parameter. *)
Variable format_dict : dict json -> str.

(** The satellite antenna sign that opens the first diagnostic. *)
Definition antenna : str := [0x1F4E1%N].

(** [POST /api/webhook] *)
Definition webhook_handler (request : WebhookPayload.t) : prog (dict str) :=
  let agent := WebhookPayload.agent request in
  let routed_service := dict_get planetary_agents agent (lit "CygNus") in
  let event := WebhookPayload.event request in
  print (antenna ++ lit " Webhook from " ++ routed_service ++ lit " ["
         ++ agent ++ lit "]: " ++ event) ;;
  print (lit "Data: " ++ format_dict (WebhookPayload.data request)) ;;
  Ret [ (lit "status", lit "Webhook received"); (lit "agent", agent);
        (lit "service", routed_service) ].

End Webhook.

(** [GET /api/agents] *)
Definition list_agents : prog (dict (dict str)) :=
  Ret [ (lit "planetary_agents", planetary_agents) ].

(** *** A process lifetime *)

(** One request to the application. *)
Inductive call : Type :=
| CallNlp2code (request : NLPRequest.t)
| CallAvatar (request : AvatarRequest.t)
| CallTts (request : TTSRequest.t)
| CallWebhook (request : WebhookPayload.t)
| CallAgents.

(** What the handler handed back to the framework. *)
Inductive reply : Type :=
| ReplyDict (d : dict str)
| ReplyJSON (r : JSONResponse)
| ReplyAgents (d : dict (dict str)).

Definition dispatch (format_dict : dict json -> str) (c : call) : prog reply :=
  match c with
  | CallNlp2code request => d <- parse_instruction request ;; Ret (ReplyDict d)
  | CallAvatar request => d <- control_avatar request ;; Ret (ReplyDict d)
  | CallTts request => r <- generate_tts request ;; Ret (ReplyJSON r)
  | CallWebhook request =>
      d <- webhook_handler format_dict request ;; Ret (ReplyDict d)
  | CallAgents => d <- list_agents ;; Ret (ReplyAgents d)
  end.

(** The requests of a process, served one after the other: no handler
    awaits, so each runs to its end before the next starts. *)
Fixpoint serve (format_dict : dict json -> str) (net : network)
  (calls : list call) (w : world) : list (outcome reply) * world :=
  match calls with
  | [] => ([], w)
  | c :: calls' =>
      let (o, w') := run net (dispatch format_dict c) w in
      let (os, w'') := serve format_dict net calls' w' in
      (o :: os, w'')
  end.

Local Close Scope prog_scope.

(** ** Vocabulary of the statements *)

(** [p] occurs in [s]. *)
Definition occurs (p s : str) : Prop := exists u v, s = u ++ p ++ v.

(** No proper suffix of [p] is a prefix of [p]: two occurrences of [p]
    cannot overlap. *)
Definition unbordered (p : str) : bool :=
  forallb (fun k => negb (starts_with (skipn k p) p)) (seq 1 (length p - 1)).

(** Only whitespace. *)
Definition spaces (w : str) : Prop := Forall (fun c => is_space c = true) w.

(** Empty, or opening with a character that is not whitespace. *)
Definition head_ok (y : str) : Prop :=
  match y with
  | [] => True
  | c :: _ => is_space c = false
  end.

(** [j[k]] of a JSON object. *)
Definition json_get (j : json) (k : str) : option json :=
  match j with
  | JDict d => dict_lookup d k
  | _ => None
  end.

(** The annotated string as the specification words it: the instruction
    is trimmed, the literal is replaced in what is left, and the bracketed
    service and one space are put in front. *)
Definition spec_parsed (instruction agent : str) : str :=
  lit "[" ++ resolveService agent ++ lit "] "
  ++ replace (lit "Animate avatar to") (lit "[ACTION]") (strip instruction).

(** The request that [generate_tts] assembles before it posts (the handler
    builds it inline; it is named here for the statements). *)
Definition tts_request (text : str) : requests.Request :=
  {| requests.url := lit "https://api.elevenlabs.io/v1/text-to-speech/your-voice-id";
     requests.headers :=
       [ (lit "xi-api-key", lit "your-elevenlabs-api-key");
         (lit "Content-Type", lit "application/json") ];
     requests.json_body :=
       JDict [ (lit "text", JStr text);
               (lit "voice_settings",
                JDict [ (lit "stability", JFloat float_0_5);
                        (lit "similarity_boost", JFloat float_0_75) ]) ] |}.

(** The two responses [generate_tts] can build. *)
Definition tts_generated (agent : str) : JSONResponse :=
  {| content := [ (lit "status", lit "TTS generated"); (lit "agent", agent);
                  (lit "service", resolveService agent) ];
     status_code := 200 |}.

Definition tts_failed (agent : str) : JSONResponse :=
  {| content := [ (lit "error", lit "TTS failed"); (lit "agent", agent);
                  (lit "service", resolveService agent) ];
     status_code := 500 |}.

(** A provider that cannot be reached, and one that always answers with
    the same status code. *)
Definition net_down : network :=
  fun _ _ => Raised (RequestException requests.ConnectionError).
Definition net_status (code : Z) : network :=
  fun _ _ => Returned {| requests.status_code := code |}.

(** Two standard outputs: UTF-8, and ASCII, both with strict errors. *)
Definition utf8_strict (c : char) : bool := negb (is_surrogate c).
Definition ascii_strict (c : char) : bool := (c <? 128)%N.

(** A process that has done nothing yet, with a UTF-8 standard output. *)
Definition fresh : world :=
  {| stdout := []; outbox := []; can_encode := utf8_strict |}.

(** The same with an ASCII standard output. *)
Definition fresh_ascii : world :=
  {| stdout := []; outbox := []; can_encode := ascii_strict |}.

(** The two diagnostics of [webhook_handler] and the one of
    [control_avatar], as the f-strings build them. *)
Definition webhook_line (event agent : str) : str :=
  antenna ++ lit " Webhook from " ++ resolveService agent ++ lit " ["
  ++ agent ++ lit "]: " ++ event.
Definition data_line (format_dict : dict json -> str) (data : dict json)
  : str :=
  lit "Data: " ++ format_dict data.
Definition avatar_line (action agent : str) : str :=
  lit "Triggering avatar action via " ++ resolveService agent
  ++ lit ": " ++ action.

(** The texts of the speech requests among the calls of a process, in
    order. *)
Definition tts_texts (calls : list call) : list str :=
  flat_map (fun c => match c with
                     | CallTts request => [TTSRequest.text request]
                     | _ => []
                     end) calls.

(** How many times the handler of a call calls [print]. *)
Definition diagnostics (c : call) : nat :=
  match c with
  | CallAvatar _ => 1
  | CallWebhook _ => 2
  | _ => 0
  end.

(** * Properties *)

(** ** Strings: prefixes and occurrences *)

Module PyStrFacts.

Lemma eqb_eq (a b : str) : PyStr.eqb a b = true <-> a = b.
Proof.
  revert b; induction a as [|x a IH]; intros [|y b]; simpl; split;
    try discriminate; try reflexivity.
  - intros H. apply andb_true_iff in H as [Hx Hab].
    apply N.eqb_eq in Hx. apply IH in Hab. now subst.
  - intros H. injection H as -> ->.
    apply andb_true_iff; split; [apply N.eqb_refl | now apply IH].
Qed.

Lemma eqb_neq (a b : str) : a <> b -> PyStr.eqb a b = false.
Proof.
  intros H. destruct (PyStr.eqb a b) eqn:E; [|reflexivity].
  now apply eqb_eq in E.
Qed.

Lemma starts_with_prefix (p s : str) :
  starts_with p s = true <-> exists t, s = p ++ t.
Proof.
  revert s; induction p as [|x p IH]; intros s; simpl.
  - split; [intros _; now exists s | reflexivity].
  - destruct s as [|y s].
    + split; [discriminate | intros [t Ht]; discriminate].
    + rewrite andb_true_iff, N.eqb_eq, IH. split.
      * intros [-> [t ->]]. now exists t.
      * intros [t Ht]. injection Ht as -> ->. split; [reflexivity | now exists t].
Qed.

Lemma starts_with_app (p t : str) : starts_with p (p ++ t) = true.
Proof. apply starts_with_prefix. now exists t. Qed.

Lemma starts_with_short (p s : str) :
  length s < length p -> starts_with p s = false.
Proof.
  intros Hlen. destruct (starts_with p s) eqn:E; [|reflexivity].
  apply starts_with_prefix in E as [t ->]. rewrite length_app in Hlen. lia.
Qed.

Lemma contains_occurs (p s : str) : contains p s = true <-> occurs p s.
Proof.
  induction s as [|c s IH].
  - simpl. rewrite orb_false_r, starts_with_prefix. split.
    + intros [t Ht]. now exists [], t.
    + intros [u [v H]]. symmetry in H. apply app_eq_nil in H as [-> H].
      apply app_eq_nil in H as [-> ->]. now exists [].
  - cbn [contains]. rewrite orb_true_iff, IH, starts_with_prefix. split.
    + intros [[t Ht] | [u [v H]]].
      * now exists [], t.
      * exists (c :: u), v. now rewrite H.
    + intros [[|d u] [v H]].
      * left. now exists v.
      * right. injection H as _ H. now exists u, v.
Qed.

Lemma occurs_short (p s : str) : length s < length p -> ~ occurs p s.
Proof.
  intros Hlen [u [v ->]]. rewrite !length_app in Hlen. lia.
Qed.

(** A character that [p] does not have cuts every occurrence of [p]. *)
Lemma occurs_split (p x y : str) (z : char) :
  ~ In z p -> occurs p (x ++ z :: y) -> occurs p x \/ occurs p y.
Proof.
  intros Hz [u [v H]].
  apply app_eq_app in H as [l [[-> H] | [-> H]]].
  - (* the occurrence starts before [z] *)
    apply app_eq_app in H as [m [[-> H] | [-> H]]].
    + destruct m as [|d m].
      * left. exists u, []. now rewrite !app_nil_r.
      * injection H as <- _. exfalso. apply Hz.
        apply in_or_app. right. now left.
    + left. now exists u, m.
  - (* the occurrence starts at or after [z] *)
    destruct l as [|d l].
    + simpl in H. destruct p as [|a p].
      * right. now exists [], y.
      * injection H as <- _. exfalso. apply Hz. now left.
    + injection H as <- ->. right. now exists l, v.
Qed.

(** ** [str.replace] *)

Lemma replace_from_skip (old new : str) (k : nat) (s : str) :
  replace_from old new k s = replace_from old new 0 (skipn k s).
Proof.
  revert k; induction s as [|c s IH]; intros [|k]; try reflexivity.
  simpl. apply IH.
Qed.

(** The scan at one character: the equation the definition stands for. *)
Lemma replace_cons (old new : str) (c : char) (s : str) :
  old <> [] ->
  replace old new (c :: s) =
  if starts_with old (c :: s)
  then new ++ replace old new (skipn (length old - 1) s)
  else c :: replace old new s.
Proof.
  intros Hne. unfold replace. destruct old as [|a p]; [contradiction|].
  cbn [replace_from]. now rewrite replace_from_skip.
Qed.

Lemma replace_nil (old new : str) : old <> [] -> replace old new [] = [].
Proof. intros Hne. unfold replace. destruct old; [contradiction | reflexivity]. Qed.

Lemma replace_hit (old new t : str) :
  old <> [] -> replace old new (old ++ t) = new ++ replace old new t.
Proof.
  intros Hne. destruct old as [|a p]; [contradiction|].
  change ((a :: p) ++ t) with (a :: (p ++ t)).
  rewrite replace_cons by exact Hne.
  change (a :: p ++ t) with ((a :: p) ++ t). rewrite starts_with_app.
  f_equal. f_equal. simpl. rewrite Nat.sub_0_r.
  rewrite skipn_app, Nat.sub_diag, skipn_all. reflexivity.
Qed.

Lemma replace_miss (old new : str) (c : char) (s : str) :
  old <> [] ->
  starts_with old (c :: s) = false ->
  replace old new (c :: s) = c :: replace old new s.
Proof. intros Hne H. now rewrite replace_cons, H. Qed.

(** Induction along the scan: past an occurrence, or past one character
    where no occurrence starts. *)
Lemma replace_ind (old : str) (Q : str -> Prop) :
  old <> [] ->
  Q [] ->
  (forall t, Q t -> Q (old ++ t)) ->
  (forall c s, starts_with old (c :: s) = false -> Q s -> Q (c :: s)) ->
  forall s, Q s.
Proof.
  intros Hne Hnil Hhit Hmiss s.
  remember (length s) as n eqn:Hn. revert s Hn.
  induction n as [n IH] using lt_wf_ind. intros [|c s] Hn; [exact Hnil|].
  destruct (starts_with old (c :: s)) eqn:E.
  - apply starts_with_prefix in E as [t E]. rewrite E. apply Hhit.
    apply (IH (length t)); [|reflexivity].
    subst n. rewrite E, length_app.
    destruct old; [contradiction | simpl; lia].
  - apply Hmiss; [exact E|].
    apply (IH (length s)); [subst n; simpl; lia | reflexivity].
Qed.

Lemma starts_with_app_l (p x y : str) :
  length p <= length x -> starts_with p (x ++ y) = starts_with p x.
Proof.
  revert x; induction p as [|a p IH]; intros [|c x] Hlen; simpl in *;
    try reflexivity; try lia.
  f_equal. apply IH. lia.
Qed.

Lemma starts_with_transfer (p : str) (c : char) (s s' : str) :
  (forall q, incl q p -> starts_with q s = true -> starts_with q s' = true) ->
  starts_with p (c :: s) = true -> starts_with p (c :: s') = true.
Proof.
  destruct p as [|x q]; [reflexivity|]. simpl. intros H Hpre.
  apply andb_true_iff in Hpre as [Hx Hq]. rewrite Hx. simpl.
  apply H; [|exact Hq]. intros y Hy. now right.
Qed.

Lemma no_overlap (p x y : str) :
  unbordered p = true ->
  0 < length x < length p ->
  starts_with p (x ++ p ++ y) = false.
Proof.
  intros Hp Hlen. destruct (starts_with p (x ++ p ++ y)) eqn:E; [|reflexivity].
  exfalso. apply starts_with_prefix in E as [t E].
  apply app_eq_app in E as [l [[Hx _] | [Hpx E]]].
  - rewrite Hx, length_app in Hlen. lia.
  - assert (Hl : length l = length p - length x).
    { pose proof (f_equal (@length char) Hpx) as Hl.
      rewrite length_app in Hl. lia. }
    assert (Hskip : skipn (length x) p = l).
    { rewrite Hpx. now rewrite skipn_app, Nat.sub_diag, skipn_all. }
    assert (Hpre : starts_with l p = true).
    { apply starts_with_prefix.
      apply app_eq_app in E as [m [[Hm _] | [Hm _]]].
      - now exists m.
      - rewrite Hm, length_app in Hl. lia. }
    unfold unbordered in Hp. rewrite forallb_forall in Hp.
    specialize (Hp (length x)). rewrite Hskip, Hpre in Hp.
    assert (In (length x) (seq 1 (length p - 1))) as Hin
      by (apply in_seq; lia).
    apply Hp in Hin. discriminate.
Qed.

Section Scan.

Variables old new : str.
Hypothesis old_nonempty : old <> [].

(** Every occurrence is replaced where it stands, whatever surrounds
    it. *)
Lemma replace_occurrence (a b : str) :
  unbordered old = true ->
  replace old new (a ++ old ++ b) =
  replace old new a ++ new ++ replace old new b.
Proof.
  intros Hub. pattern a. apply (@replace_ind old); [exact old_nonempty | | |].
  - rewrite replace_nil by assumption. simpl. now apply replace_hit.
  - intros t IH. rewrite <- app_assoc, !replace_hit by assumption.
    now rewrite IH, <- app_assoc.
  - intros c s Hmiss IH.
    rewrite (@replace_miss old new c s old_nonempty Hmiss).
    change ((c :: s) ++ old ++ b) with (c :: (s ++ old ++ b)).
    rewrite replace_miss, IH; [reflexivity | assumption |].
    change (c :: s ++ old ++ b) with ((c :: s) ++ old ++ b).
    destruct (Nat.lt_ge_cases (length (c :: s)) (length old)) as [Hlt | Hge].
    + apply no_overlap; [assumption | simpl in *; lia].
    + now rewrite starts_with_app_l.
Qed.

(** A text without the first character of [new] that opens the result
    opens the input too. *)
Lemma starts_with_replace (a : char) (rest q s : str) :
  new = a :: rest -> ~ In a q ->
  starts_with q (replace old new s) = true -> starts_with q s = true.
Proof.
  intros Hnew. revert q. pattern s. apply (@replace_ind old); [exact old_nonempty | | |].
  - intros q _. now rewrite replace_nil.
  - intros t _ q Ha. rewrite replace_hit, Hnew by assumption.
    destruct q as [|x q]; [reflexivity|]. simpl.
    intros H. apply andb_true_iff in H as [H _]. apply N.eqb_eq in H.
    exfalso. apply Ha. now left.
  - intros c t Hmiss IH q Ha. rewrite replace_miss by assumption.
    destruct q as [|x q]; [reflexivity|]. simpl.
    intros H. apply andb_true_iff in H as [Hx H].
    rewrite Hx. simpl. apply IH; [|exact H].
    intros Hin. apply Ha. now right.
Qed.

(** No occurrence of [old] is left, when [new] opens and closes with
    characters [old] does not have. *)
Lemma replace_leaves_none (a z : char) (rest body : str) :
  new = a :: rest -> ~ In a old ->
  new = body ++ [z] -> ~ In z old -> contains old body = false ->
  forall s, ~ occurs old (replace old new s).
Proof.
  intros Hopen Ha Hclose Hz Hbody s. pattern s.
  apply (@replace_ind old); [exact old_nonempty | | |].
  - rewrite replace_nil by assumption. intros [u [v H]].
    symmetry in H. apply app_eq_nil in H as [_ H].
    apply app_eq_nil in H as [H _]. contradiction.
  - intros t IH. rewrite replace_hit by assumption.
    rewrite Hclose at 1. rewrite <- app_assoc. intros H.
    destruct (@occurs_split old body (replace old new t) z Hz H) as [H1 | H1].
    + apply contains_occurs in H1. congruence.
    + contradiction.
  - intros c t Hmiss IH. rewrite replace_miss by assumption.
    intros [[|d u] [v H]].
    + assert (Hpre : starts_with old (c :: replace old new t) = true)
        by (apply starts_with_prefix; now exists v).
      apply starts_with_transfer with (s' := t) in Hpre; [congruence|].
      intros q Hq. apply (@starts_with_replace a rest q t Hopen).
      intros Hin. apply Ha, Hq, Hin.
    + injection H as _ H. apply IH. now exists u, v.
Qed.

End Scan.

(** ** [str.strip] *)

Lemma head_ok_app (x y : str) : head_ok x -> head_ok y -> head_ok (x ++ y).
Proof. destruct x; simpl; auto. Qed.

Lemma head_ok_app_l (x y : str) : x <> [] -> head_ok x -> head_ok (x ++ y).
Proof. destruct x; simpl; [contradiction | auto]. Qed.

Lemma head_ok_app_inv (x y : str) : head_ok (x ++ y) -> head_ok x.
Proof. destruct x; simpl; auto. Qed.

Lemma spaces_rev (w : str) : spaces w -> spaces (rev w).
Proof. apply Forall_rev. Qed.

Lemma drop_spaces_spaces (w y : str) :
  spaces w -> drop_spaces (w ++ y) = drop_spaces y.
Proof.
  induction 1 as [|c w Hc _ IH]; [reflexivity|]. simpl. now rewrite Hc.
Qed.

Lemma drop_spaces_fix (y : str) : head_ok y -> drop_spaces y = y.
Proof. destruct y as [|c y]; simpl; [reflexivity|]. now intros ->. Qed.

Lemma drop_spaces_head (s : str) : head_ok (drop_spaces s).
Proof.
  induction s as [|c s IH]; simpl; [exact I|].
  destruct (is_space c) eqn:E; [exact IH | exact E].
Qed.

Lemma drop_spaces_decomp (s : str) :
  exists w, spaces w /\ s = w ++ drop_spaces s.
Proof.
  induction s as [|c s [w [Hw IH]]]; simpl.
  - exists []. split; [constructor | reflexivity].
  - destruct (is_space c) eqn:E.
    + exists (c :: w). split; [now constructor | simpl; now rewrite <- IH].
    + exists []. split; [constructor | reflexivity].
Qed.

Lemma rstrip_spaces (x w : str) : spaces w -> rstrip (x ++ w) = rstrip x.
Proof.
  intros Hw. unfold rstrip.
  now rewrite rev_app_distr, drop_spaces_spaces by now apply spaces_rev.
Qed.

Lemma rstrip_fix (y : str) : head_ok (rev y) -> rstrip y = y.
Proof.
  intros H. unfold rstrip. rewrite drop_spaces_fix by exact H.
  apply rev_involutive.
Qed.

Lemma rstrip_decomp (s : str) : exists w, spaces w /\ s = rstrip s ++ w.
Proof.
  destruct (drop_spaces_decomp (rev s)) as [w [Hw H]].
  exists (rev w). split; [now apply spaces_rev|].
  unfold rstrip. rewrite <- rev_app_distr, <- H. symmetry. apply rev_involutive.
Qed.

Lemma rstrip_last (s : str) : head_ok (rev (rstrip s)).
Proof. unfold rstrip. rewrite rev_involutive. apply drop_spaces_head. Qed.

Lemma starts_with_space (p : str) (c : char) (s : str) :
  p <> [] -> head_ok p -> is_space c = true -> starts_with p (c :: s) = false.
Proof.
  destruct p as [|x q]; [contradiction|]. simpl. intros _ Hx Hc.
  destruct (N.eqb_spec x c) as [-> | _]; [congruence | reflexivity].
Qed.

(** An occurrence cannot reach into whitespace that follows, when the
    text looked for does not end in whitespace. *)
Lemma starts_with_before_spaces (p x w : str) :
  head_ok (rev p) -> spaces w ->
  starts_with p x = false -> starts_with p (x ++ w) = false.
Proof.
  intros Hp Hw Hmiss. destruct (starts_with p (x ++ w)) eqn:E; [|reflexivity].
  exfalso. apply starts_with_prefix in E as [t E].
  apply app_eq_app in E as [l [[Hx _] | [Hpx Hwl]]].
  - rewrite Hx, starts_with_app in Hmiss. discriminate.
  - destruct (rev l) as [|z l'] eqn:El.
    + apply (f_equal (@rev char)) in El. rewrite rev_involutive in El.
      simpl in El. subst l. rewrite app_nil_r in Hpx. subst p.
      rewrite <- (app_nil_r x) in Hmiss at 2.
      rewrite starts_with_app in Hmiss. discriminate.
    + rewrite Hpx, rev_app_distr, El in Hp. simpl in Hp.
      assert (Hz : In z w).
      { rewrite Hwl. apply in_or_app. left. apply in_rev. rewrite El. now left. }
      unfold spaces in Hw. rewrite Forall_forall in Hw.
      apply Hw in Hz. congruence.
Qed.

Section Strip.

Variables old new : str.
Hypothesis old_nonempty : old <> [].
Hypothesis new_nonempty : new <> [].
Hypothesis old_head : head_ok old.
Hypothesis old_last : head_ok (rev old).
Hypothesis new_head : head_ok new.
Hypothesis new_last : head_ok (rev new).

Lemma replace_eq_nil (s : str) : replace old new s = [] -> s = [].
Proof.
  destruct s as [|c s]; [reflexivity|]. rewrite replace_cons by assumption.
  destruct (starts_with old (c :: s)); [|discriminate].
  intros H. apply app_eq_nil in H as [H _]. contradiction.
Qed.

Lemma replace_spaces_l (w s : str) :
  spaces w -> replace old new (w ++ s) = w ++ replace old new s.
Proof.
  induction 1 as [|c w Hc _ IH]; [reflexivity|]. simpl.
  rewrite replace_miss, IH; [reflexivity | assumption |].
  now apply starts_with_space.
Qed.

Lemma replace_spaces_r (x w : str) :
  spaces w -> replace old new (x ++ w) = replace old new x ++ w.
Proof.
  intros Hw. pattern x. apply (@replace_ind old); [exact old_nonempty | | |].
  - rewrite replace_nil by assumption. simpl.
    rewrite <- (app_nil_r w) at 1. rewrite replace_spaces_l by assumption.
    now rewrite replace_nil, app_nil_r.
  - intros t IH. rewrite <- app_assoc, !replace_hit by assumption.
    now rewrite IH, app_assoc.
  - intros c s Hmiss IH.
    rewrite (@replace_miss old new c s old_nonempty Hmiss).
    change ((c :: s) ++ w) with (c :: (s ++ w)).
    rewrite replace_miss, IH; [reflexivity | assumption |].
    change (c :: s ++ w) with ((c :: s) ++ w).
    now apply starts_with_before_spaces.
Qed.

Lemma replace_head (s : str) : head_ok s -> head_ok (replace old new s).
Proof.
  destruct s as [|c s]; [now rewrite replace_nil|].
  intros Hc. rewrite replace_cons by assumption.
  destruct (starts_with old (c :: s)); [|exact Hc].
  now apply head_ok_app_l.
Qed.

Lemma replace_last (s : str) :
  head_ok (rev s) -> head_ok (rev (replace old new s)).
Proof.
  pattern s. apply (@replace_ind old); [exact old_nonempty | | |].
  - now rewrite replace_nil.
  - intros t IH H. rewrite replace_hit, rev_app_distr by assumption.
    rewrite rev_app_distr in H. apply head_ok_app_inv in H.
    apply head_ok_app; [now apply IH | exact new_last].
  - intros c t Hmiss IH H. rewrite replace_miss by assumption.
    simpl in *. destruct t as [|d t].
    + now rewrite replace_nil.
    + apply head_ok_app_l.
      * intros E. apply (f_equal (@rev char)) in E.
        rewrite rev_involutive in E. simpl in E.
        apply replace_eq_nil in E. discriminate.
      * apply IH. now apply head_ok_app_inv in H.
Qed.

Lemma lstrip_replace (s : str) :
  lstrip (replace old new s) = replace old new (lstrip s).
Proof.
  unfold lstrip. destruct (drop_spaces_decomp s) as [w [Hw H]].
  rewrite H at 1. rewrite replace_spaces_l, drop_spaces_spaces by assumption.
  apply drop_spaces_fix, replace_head, drop_spaces_head.
Qed.

Lemma rstrip_replace (s : str) :
  rstrip (replace old new s) = replace old new (rstrip s).
Proof.
  destruct (rstrip_decomp s) as [w [Hw H]].
  rewrite H at 1. rewrite replace_spaces_r, rstrip_spaces by assumption.
  apply rstrip_fix, replace_last, rstrip_last.
Qed.

(** Trimming and replacing commute. *)
Lemma strip_replace (s : str) :
  strip (replace old new s) = replace old new (strip s).
Proof. unfold strip. now rewrite lstrip_replace, rstrip_replace. Qed.

(** Whitespace alone is replaced by itself and trimmed to nothing. *)
Lemma strip_replace_spaces (w : str) :
  spaces w -> strip (replace old new w) = [].
Proof.
  intros Hw. rewrite <- (app_nil_r w), replace_spaces_l by assumption.
  rewrite replace_nil, app_nil_r by assumption.
  unfold strip, lstrip. rewrite <- (app_nil_r w), drop_spaces_spaces by assumption.
  reflexivity.
Qed.

End Strip.

End PyStrFacts.

Import PyStrFacts.

(** ** The built-ins on small inputs *)

Example replace_leftmost_first :
  replace (lit "aa") (lit "b") (lit "aaaaa") = lit "bba".
Proof. reflexivity. Qed.

Example replace_empty_old :
  replace [] (lit "-") (lit "abc") = lit "-a-b-c-".
Proof. reflexivity. Qed.

Example strip_keeps_inner_spaces :
  strip ([0x09; 0x20]%N ++ lit "a  b" ++ [0x0A; 0xA0; 0x2003]%N) = lit "a  b".
Proof. reflexivity. Qed.

Example dict_get_default :
  dict_get planetary_agents (lit "Neptune") (lit "CygNus") = lit "SLAMAR"
  /\ dict_get planetary_agents (lit "neptune") (lit "CygNus") = lit "CygNus".
Proof. split; reflexivity. Qed.

(** The two float literals are canonical binary64 numbers. *)
Lemma float_literals_valid :
  valid_binary 53 1024 float_0_5 = true
  /\ valid_binary 53 1024 float_0_75 = true.
Proof. split; reflexivity. Qed.

(** ** Dicts *)

Section DictFacts.

Context {V : Type}.

Lemma dict_lookup_In (d : dict V) (k : str) (v : V) :
  dict_lookup d k = Some v -> In (k, v) d.
Proof.
  induction d as [|[k' v'] d IH]; simpl; [discriminate|].
  destruct (PyStr.eqb k' k) eqn:E.
  - intros H. injection H as ->. apply eqb_eq in E. subst. now left.
  - intros H. right. now apply IH.
Qed.

Lemma dict_lookup_member (d : dict V) (k : str) (v : V) :
  NoDup (keys d) -> In (k, v) d -> dict_lookup d k = Some v.
Proof.
  induction d as [|[k' v'] d IH]; simpl; [contradiction|].
  intros Hnd [H | H].
  - injection H as -> ->.
    replace (PyStr.eqb k k) with true by (symmetry; now apply eqb_eq).
    reflexivity.
  - inversion Hnd as [|? ? Hk' Hnd']; subst.
    rewrite eqb_neq; [now apply IH|].
    intros ->. apply Hk'. unfold keys. apply in_map_iff. now exists (k, v).
Qed.

Lemma dict_lookup_absent (d : dict V) (k : str) :
  ~ In k (keys d) -> dict_lookup d k = None.
Proof.
  induction d as [|[k' v'] d IH]; simpl; [reflexivity|]. intros H.
  rewrite eqb_neq; [apply IH|]; intros E; apply H; [now right | now left].
Qed.

Lemma dict_get_cases (d : dict V) (k : str) (default : V) :
  dict_get d k default = default \/ In (dict_get d k default) (map snd d).
Proof.
  unfold dict_get. destruct (dict_lookup d k) as [v|] eqn:E; [right | now left].
  apply dict_lookup_In in E. apply in_map_iff. now exists (k, v).
Qed.

End DictFacts.

(** ** The agent table *)

Lemma planetary_agents_keys_NoDup : NoDup (keys planetary_agents).
Proof.
  vm_compute. repeat constructor; simpl; intuition discriminate.
Qed.

Lemma resolveService_short (agent : str) : length (resolveService agent) <= 10.
Proof.
  unfold resolveService.
  destruct (dict_get_cases planetary_agents agent (lit "CygNus")) as [-> | H].
  - vm_compute. lia.
  - revert H. generalize (dict_get planetary_agents agent (lit "CygNus")).
    apply Forall_forall. vm_compute. repeat constructor.
Qed.

(** C1. resolveService is a total, pure lookup: an agent name that is a
    key of the table is sent to the service the table holds for it (the
    six pairs are spelled out), and every other string is sent to the
    fallback service CygNus. *)
Theorem resolveService_total (agent : str) :
  (forall service,
      In (agent, service)
         [ (lit "Mercury", lit "Push2Repo"); (lit "Mars", lit "NotebookLM");
           (lit "Saturn", lit "NLP2CODE"); (lit "Jupiter", lit "CoManDeck");
           (lit "Neptune", lit "SLAMAR"); (lit "Sedna", lit "HeylloGen") ] ->
      resolveService agent = service)
  /\ (~ In agent [ lit "Mercury"; lit "Mars"; lit "Saturn"; lit "Jupiter";
                   lit "Neptune"; lit "Sedna" ] ->
      resolveService agent = lit "CygNus").
Proof.
  unfold resolveService, dict_get. split.
  - intros service H.
    now rewrite (@dict_lookup_member _ planetary_agents agent service
                   planetary_agents_keys_NoDup H).
  - intros H. now rewrite (@dict_lookup_absent _ planetary_agents agent H).
Qed.

Lemma resolveService_total_witness :
  resolveService (lit "Mars") = lit "NotebookLM"
  /\ resolveService (lit "Pluto") = lit "CygNus"
  /\ resolveService (lit "mars") = lit "CygNus".
Proof.
  split; [|split].
  - apply (proj1 (resolveService_total (lit "Mars"))).
    right; left; reflexivity.
  - apply (proj2 (resolveService_total (lit "Pluto"))).
    vm_compute. intuition discriminate.
  - apply (proj2 (resolveService_total (lit "mars"))).
    vm_compute. intuition discriminate.
Defined.

(** ** More on [str.replace] and [str.strip] *)

Lemma replace_absent (old new s : str) :
  old <> [] -> ~ occurs old s -> replace old new s = s.
Proof.
  intros Hne. pattern s. apply (@replace_ind old); [exact Hne | | |].
  - intros _. now apply replace_nil.
  - intros t _ H. exfalso. apply H. now exists [], t.
  - intros c t Hmiss IH H. rewrite replace_miss by assumption.
    f_equal. apply IH. intros [u [v E]]. apply H.
    exists (c :: u), v. now rewrite E.
Qed.

Lemma replace_length (old new s : str) :
  old <> [] -> length new <= length old ->
  length (replace old new s) <= length s.
Proof.
  intros Hne Hlen. pattern s. apply (@replace_ind old); [exact Hne | | |].
  - now rewrite replace_nil.
  - intros t IH. rewrite replace_hit, !length_app by assumption. lia.
  - intros c t Hmiss IH. rewrite replace_miss by assumption. simpl. lia.
Qed.

(** A character the text looked for does not have stops every match
    before it. *)
Lemma starts_with_before_foreign (p x y : str) (z : char) :
  ~ In z p -> starts_with p x = false -> starts_with p (x ++ z :: y) = false.
Proof.
  intros Hz Hmiss. destruct (starts_with p (x ++ z :: y)) eqn:E; [|reflexivity].
  exfalso. apply starts_with_prefix in E as [t E].
  apply app_eq_app in E as [l [[Hx _] | [Hp Hl]]].
  - rewrite Hx, starts_with_app in Hmiss. discriminate.
  - destruct l as [|d l].
    + rewrite app_nil_r in Hp. subst p.
      rewrite <- (app_nil_r x) in Hmiss at 2.
      rewrite starts_with_app in Hmiss. discriminate.
    + injection Hl as <- _. apply Hz. rewrite Hp.
      apply in_or_app. right. now left.
Qed.

(** Such a character splits the scan in two. *)
Lemma replace_foreign (old new a b : str) (z : char) :
  old <> [] -> ~ In z old ->
  replace old new (a ++ z :: b) = replace old new a ++ z :: replace old new b.
Proof.
  intros Hne Hz. pattern a. apply (@replace_ind old); [exact Hne | | |].
  - rewrite replace_nil by assumption. simpl.
    apply replace_miss; [assumption|].
    apply (@starts_with_before_foreign old [] b z Hz).
    destruct old; [contradiction | reflexivity].
  - intros t IH. rewrite <- app_assoc, !replace_hit by assumption.
    now rewrite IH, <- app_assoc.
  - intros c s Hmiss IH.
    rewrite (@replace_miss old new c s Hne Hmiss).
    change ((c :: s) ++ z :: b) with (c :: (s ++ z :: b)).
    rewrite replace_miss, IH; [reflexivity | assumption |].
    change (c :: s ++ z :: b) with ((c :: s) ++ z :: b).
    now apply starts_with_before_foreign.
Qed.

Lemma drop_spaces_length (s : str) : length (drop_spaces s) <= length s.
Proof.
  induction s as [|c s IH]; simpl; [lia|].
  destruct (is_space c); simpl; lia.
Qed.

Lemma strip_length (s : str) : length (strip s) <= length s.
Proof.
  unfold strip, rstrip, lstrip. rewrite length_rev.
  pose proof (drop_spaces_length (rev (drop_spaces s))) as H.
  rewrite length_rev in H. pose proof (drop_spaces_length s). lia.
Qed.

Lemma drop_spaces_all (w : str) : spaces w -> drop_spaces w = [].
Proof.
  intros Hw. rewrite <- (app_nil_r w). now rewrite drop_spaces_spaces.
Qed.

Lemma strip_head (s : str) : head_ok (strip s).
Proof.
  unfold strip. destruct (rstrip_decomp (lstrip s)) as [w [_ H]].
  pose proof (drop_spaces_head s) as Hh. fold (lstrip s) in Hh.
  rewrite H in Hh. now apply head_ok_app_inv in Hh.
Qed.

Lemma strip_last (s : str) : head_ok (rev (strip s)).
Proof. apply rstrip_last. Qed.

Lemma strip_fix (s : str) : head_ok s -> head_ok (rev s) -> strip s = s.
Proof.
  intros H1 H2. unfold strip, lstrip. rewrite drop_spaces_fix by assumption.
  now apply rstrip_fix.
Qed.

Lemma strip_nil_iff (s : str) : strip s = [] <-> spaces s.
Proof.
  split.
  - intros H. destruct (drop_spaces_decomp s) as [w1 [Hw1 H1]].
    destruct (rstrip_decomp (lstrip s)) as [w2 [Hw2 H2]].
    fold (strip s) in H2. rewrite H in H2. simpl in H2.
    rewrite H1. fold (lstrip s). rewrite H2. now apply Forall_app.
  - intros Hw. unfold strip, lstrip. now rewrite drop_spaces_all.
Qed.

Lemma strip_spaces_around (w1 y w2 : str) :
  spaces w1 -> spaces w2 -> strip (w1 ++ y ++ w2) = strip y.
Proof.
  intros H1 H2. unfold strip, lstrip. rewrite drop_spaces_spaces by assumption.
  clear w1 H1. induction y as [|c y IH]; simpl.
  - now rewrite drop_spaces_all.
  - destruct (is_space c); [exact IH|].
    change (c :: y ++ w2) with ((c :: y) ++ w2). now apply rstrip_spaces.
Qed.

Lemma replace_spaces_iff (old new s : str) :
  old <> [] -> new <> [] -> head_ok old -> head_ok new ->
  spaces (replace old new s) <-> spaces s.
Proof.
  intros Hne Hnew Hold Hhead. split.
  - pattern s. apply (@replace_ind old); [exact Hne | | |].
    + intros _. constructor.
    + intros t _ H. exfalso. rewrite replace_hit in H by assumption.
      destruct new as [|a rest]; [contradiction|].
      inversion H as [|? ? Ha _]. simpl in Hhead. congruence.
    + intros c t Hmiss IH H. rewrite replace_miss in H by assumption.
      inversion H as [|? ? Hc Ht]. constructor; [exact Hc | now apply IH].
  - intros Hw. rewrite <- (app_nil_r s).
    rewrite replace_spaces_l, replace_nil by assumption.
    now rewrite app_nil_r.
Qed.

(** ** The two literals of [parse_instruction] *)

Lemma animate_nonempty : lit "Animate avatar to" <> [].
Proof. discriminate. Qed.

Lemma action_nonempty : lit "[ACTION]" <> [].
Proof. discriminate. Qed.

Lemma animate_unbordered : unbordered (lit "Animate avatar to") = true.
Proof. vm_compute. reflexivity. Qed.

Lemma strip_replace_action (s : str) :
  strip (replace (lit "Animate avatar to") (lit "[ACTION]") s) =
  replace (lit "Animate avatar to") (lit "[ACTION]") (strip s).
Proof.
  apply strip_replace;
    solve [apply animate_nonempty | apply action_nonempty
          | vm_compute; reflexivity].
Qed.

Lemma replace_action_leaves_none (s : str) :
  ~ occurs (lit "Animate avatar to")
      (replace (lit "Animate avatar to") (lit "[ACTION]") s).
Proof.
  apply (@replace_leaves_none (lit "Animate avatar to") (lit "[ACTION]")
           animate_nonempty 91%N 93%N (lit "ACTION]") (lit "[ACTION")).
  - reflexivity.
  - vm_compute. intuition discriminate.
  - reflexivity.
  - vm_compute. intuition discriminate.
  - vm_compute. reflexivity.
Qed.

(** What [strip] keeps is a piece of its argument. *)
Lemma occurs_strip (p s : str) : occurs p (strip s) -> occurs p s.
Proof.
  intros [u [v H]]. unfold strip in H.
  destruct (drop_spaces_decomp s) as [w1 [_ H1]].
  destruct (rstrip_decomp (lstrip s)) as [w2 [_ H2]].
  exists (w1 ++ u), (v ++ w2). rewrite H1. fold (lstrip s).
  rewrite H2, H. now rewrite <- !app_assoc.
Qed.

(** ** [parse_instruction] *)

Lemma head_ok_of_first (core : str) :
  (forall c rest, core = c :: rest -> is_space c = false) -> head_ok core.
Proof. destruct core as [|c rest]; simpl; [trivial | eauto]. Qed.

Lemma head_ok_of_last (core : str) :
  (forall front c, core = front ++ [c] -> is_space c = false) ->
  head_ok (rev core).
Proof.
  intros H. destruct (rev core) as [|c l] eqn:E; simpl; [trivial|].
  apply (H (rev l)). apply (f_equal (@rev char)) in E.
  now rewrite rev_involutive in E.
Qed.

(** Whitespace around a text that neither begins nor ends with whitespace
    is what [strip] takes away, before or after the replacement. *)
Lemma strip_replace_core (w1 core w2 : str) :
  spaces w1 -> spaces w2 -> head_ok core -> head_ok (rev core) ->
  strip (replace (lit "Animate avatar to") (lit "[ACTION]") (w1 ++ core ++ w2))
  = replace (lit "Animate avatar to") (lit "[ACTION]") core.
Proof.
  intros H1 H2 Hh Hl.
  rewrite (@replace_spaces_l (lit "Animate avatar to") (lit "[ACTION]"));
    try solve [apply animate_nonempty | exact H1 | vm_compute; reflexivity].
  rewrite (@replace_spaces_r (lit "Animate avatar to") (lit "[ACTION]"));
    try solve [apply animate_nonempty | exact H2 | vm_compute; reflexivity].
  rewrite strip_spaces_around by assumption.
  apply strip_fix.
  - apply replace_head;
      solve [apply animate_nonempty | apply action_nonempty
            | vm_compute; reflexivity | exact Hh].
  - apply replace_last;
      solve [apply animate_nonempty | apply action_nonempty
            | vm_compute; reflexivity | exact Hl].
Qed.

(** C2. parseInstruction hands back the bracketed resolved service and a
    space in front of the trimmed instruction with the literal replaced,
    the agent as it came and the resolved service.  Trimming is pinned
    down: every instruction is some whitespace, a core that neither begins
    nor ends with whitespace, and some whitespace, and whichever way it is
    cut so, the parsed string is built from the core alone.  The handler
    agrees with the annotated string as the specification words it, and
    the worked examples come out as written, with and without whitespace
    around the instruction. *)
Theorem parse_instruction_spec (instruction agent : str) :
  (exists w1 core w2,
      instruction = w1 ++ core ++ w2
      /\ Forall (fun c => is_space c = true) w1
      /\ Forall (fun c => is_space c = true) w2
      /\ (forall c rest, core = c :: rest -> is_space c = false)
      /\ (forall front c, core = front ++ [c] -> is_space c = false))
  /\ (forall w1 core w2,
         instruction = w1 ++ core ++ w2 ->
         Forall (fun c => is_space c = true) w1 ->
         Forall (fun c => is_space c = true) w2 ->
         (forall c rest, core = c :: rest -> is_space c = false) ->
         (forall front c, core = front ++ [c] -> is_space c = false) ->
         parse_instruction {| NLPRequest.instruction := instruction;
                              NLPRequest.agent := agent |}
         = Ret [ (lit "parsed",
                  lit "[" ++ resolveService agent ++ lit "] "
                  ++ replace (lit "Animate avatar to") (lit "[ACTION]") core);
                 (lit "agent", agent);
                 (lit "service", resolveService agent) ])
  /\ parse_instruction {| NLPRequest.instruction := instruction;
                          NLPRequest.agent := agent |}
     = Ret [ (lit "parsed", spec_parsed instruction agent);
             (lit "agent", agent);
             (lit "service", resolveService agent) ]
  /\ parse_instruction {| NLPRequest.instruction := lit "Animate avatar to dance";
                          NLPRequest.agent := lit "Mars" |}
     = Ret [ (lit "parsed", lit "[NotebookLM] [ACTION] dance");
             (lit "agent", lit "Mars");
             (lit "service", lit "NotebookLM") ]
  /\ parse_instruction {| NLPRequest.instruction := lit "do X";
                          NLPRequest.agent := lit "Pluto" |}
     = Ret [ (lit "parsed", lit "[CygNus] do X");
             (lit "agent", lit "Pluto");
             (lit "service", lit "CygNus") ]
  /\ parse_instruction
       {| NLPRequest.instruction :=
            [0x20; 0x09]%N ++ lit "Animate avatar  to sit, Animate avatar to dance"
            ++ [0x0D; 0x0A; 0xA0]%N;
          NLPRequest.agent := lit "Mars" |}
     = Ret [ (lit "parsed",
              lit "[NotebookLM] Animate avatar  to sit, [ACTION] dance");
             (lit "agent", lit "Mars");
             (lit "service", lit "NotebookLM") ].
Proof.
  split; [|split; [|split; [|repeat split; vm_compute; reflexivity]]].
  - destruct (drop_spaces_decomp instruction) as [w1 [Hw1 H1]].
    destruct (rstrip_decomp (lstrip instruction)) as [w2 [Hw2 H2]].
    exists w1, (strip instruction), w2. unfold strip at 1.
    fold (lstrip instruction) in H1. rewrite <- H2, <- H1.
    repeat split; try assumption.
    + intros c rest E. pose proof (strip_head instruction) as H.
      now rewrite E in H.
    + intros front c E. pose proof (strip_last instruction) as H.
      rewrite E, rev_app_distr in H. exact H.
  - intros w1 core w2 -> Hw1 Hw2 Hfirst Hlast.
    unfold parse_instruction, resolveService.
    cbn [NLPRequest.instruction NLPRequest.agent].
    now rewrite (@strip_replace_core w1 core w2 Hw1 Hw2
                   (@head_ok_of_first core Hfirst)
                   (@head_ok_of_last core Hlast)).
  - unfold parse_instruction, spec_parsed, resolveService.
    cbn [NLPRequest.instruction NLPRequest.agent].
    now rewrite strip_replace_action.
Qed.

Lemma parse_instruction_spec_witness :
  parse_instruction
    {| NLPRequest.instruction :=
         [0x20; 0x09]%N ++ lit "Animate avatar to dance" ++ [0x0A]%N;
       NLPRequest.agent := lit "Mars" |}
  = Ret [ (lit "parsed", lit "[NotebookLM] [ACTION] dance");
          (lit "agent", lit "Mars");
          (lit "service", lit "NotebookLM") ].
Proof.
  apply (proj1 (proj2 (parse_instruction_spec
                         ([0x20; 0x09]%N ++ lit "Animate avatar to dance"
                          ++ [0x0A]%N) (lit "Mars")))
           [0x20; 0x09]%N (lit "Animate avatar to dance") [0x0A]%N).
  - reflexivity.
  - repeat constructor.
  - repeat constructor.
  - intros c rest E. injection E as <- _. reflexivity.
  - intros front c E.
    apply (f_equal (@rev char)) in E. rewrite rev_app_distr in E.
    vm_compute in E. injection E as <- _. reflexivity.
Defined.

(** C10. An instruction that is empty or all whitespace yields the
    bracketed service followed by exactly one space. *)
Theorem parse_instruction_blank (instruction agent : str) :
  Forall (fun c => is_space c = true) instruction ->
  parse_instruction {| NLPRequest.instruction := instruction;
                       NLPRequest.agent := agent |}
  = Ret [ (lit "parsed", lit "[" ++ resolveService agent ++ lit "] ");
          (lit "agent", agent);
          (lit "service", resolveService agent) ].
Proof.
  intros Hw. unfold parse_instruction, resolveService.
  cbn [NLPRequest.instruction NLPRequest.agent].
  rewrite (@strip_replace_spaces (lit "Animate avatar to") (lit "[ACTION]"));
    [ now rewrite app_nil_r
    | apply animate_nonempty | vm_compute; reflexivity | exact Hw ].
Qed.

Lemma parse_instruction_blank_witness :
  parse_instruction {| NLPRequest.instruction := [0x20; 0x09; 0x0A; 0x3000]%N;
                       NLPRequest.agent := lit "Saturn" |}
  = Ret [ (lit "parsed", lit "[NLP2CODE] ");
          (lit "agent", lit "Saturn");
          (lit "service", lit "NLP2CODE") ]
  /\ parse_instruction {| NLPRequest.instruction := [];
                          NLPRequest.agent := lit "Pluto" |}
     = Ret [ (lit "parsed", lit "[CygNus] ");
             (lit "agent", lit "Pluto");
             (lit "service", lit "CygNus") ].
Proof.
  split.
  - apply (@parse_instruction_blank [0x20; 0x09; 0x0A; 0x3000]%N (lit "Saturn")).
    repeat constructor.
  - apply (@parse_instruction_blank [] (lit "Pluto")). constructor.
Defined.

Lemma parsed_leaves_none (agent s : str) :
  ~ occurs (lit "Animate avatar to")
      (lit "[" ++ resolveService agent ++ lit "] "
       ++ strip (replace (lit "Animate avatar to") (lit "[ACTION]") s)).
Proof.
  set (X := strip _).
  change (lit "[" ++ resolveService agent ++ lit "] " ++ X)
    with ((91%N :: resolveService agent) ++ 93%N :: (32%N :: X)).
  intros H. apply occurs_split in H.
  - destruct H as [H | [[|d u] [v H]]].
    + revert H. apply occurs_short. simpl.
      pose proof (resolveService_short agent). lia.
    + discriminate H.
    + injection H as _ H.
      apply (@replace_action_leaves_none s), occurs_strip. now exists u, v.
  - vm_compute. intuition discriminate.
Qed.


Example parse_instruction_two_occurrences :
  parse_instruction
    {| NLPRequest.instruction :=
         lit "  Animate avatar to wave, then Animate avatar to bow ";
       NLPRequest.agent := lit "Jupiter" |}
  = Ret [ (lit "parsed", lit "[CoManDeck] [ACTION] wave, then [ACTION] bow");
          (lit "agent", lit "Jupiter");
          (lit "service", lit "CoManDeck") ].
Proof. vm_compute. reflexivity. Qed.

(** ** [list_agents] *)

(** C5. listAgents has no input and no effect, and hands back the table
    itself: exactly the six configured pairs.  It does so at any moment of
    a process lifetime, whatever requests were served before and whatever
    the network did. *)
Theorem list_agents_exact (format_dict : dict json -> str) (net : network)
  (calls : list call) (w : world) :
  let w' := snd (serve format_dict net calls w) in
  exists mapping,
    run net list_agents w' = (Returned [ (lit "planetary_agents", mapping) ], w')
    /\ (forall agent service,
           dict_lookup mapping agent = Some service <->
           In (agent, service)
              [ (lit "Mercury", lit "Push2Repo"); (lit "Mars", lit "NotebookLM");
                (lit "Saturn", lit "NLP2CODE"); (lit "Jupiter", lit "CoManDeck");
                (lit "Neptune", lit "SLAMAR"); (lit "Sedna", lit "HeylloGen") ])
    /\ length mapping = 6.
Proof.
  intros w'. exists planetary_agents. split; [reflexivity|]. split; [|reflexivity].
  intros agent service. split.
  - apply dict_lookup_In.
  - apply dict_lookup_member, planetary_agents_keys_NoDup.
Qed.

(** ** What the handlers do to a process *)

Lemma run_control_avatar (action agent : str) (net : network) (w : world) :
  run net
    (control_avatar {| AvatarRequest.action := action;
                       AvatarRequest.agent := agent |}) w
  = if encodable w (avatar_line action agent)
    then (Returned [ (lit "status", lit "Avatar action routed");
                     (lit "agent", agent);
                     (lit "service", resolveService agent) ],
          {| stdout := stdout w ++ [avatar_line action agent];
             outbox := outbox w; can_encode := can_encode w |})
    else (Raised UnicodeEncodeError, w).
Proof. reflexivity. Qed.

Lemma run_webhook_handler (format_dict : dict json -> str)
  (event : str) (data : dict json) (agent : str) (net : network) (w : world) :
  run net
    (webhook_handler format_dict
       {| WebhookPayload.event := event; WebhookPayload.data := data;
          WebhookPayload.agent := agent |}) w
  = if encodable w (webhook_line event agent)
    then
      if encodable w (data_line format_dict data)
      then (Returned [ (lit "status", lit "Webhook received");
                       (lit "agent", agent);
                       (lit "service", resolveService agent) ],
            {| stdout := stdout w
                         ++ [webhook_line event agent;
                             data_line format_dict data];
               outbox := outbox w; can_encode := can_encode w |})
      else (Raised UnicodeEncodeError,
            {| stdout := stdout w ++ [webhook_line event agent];
               outbox := outbox w; can_encode := can_encode w |})
    else (Raised UnicodeEncodeError, w).
Proof.
  unfold webhook_handler, print. cbn [bind run].
  cbn [WebhookPayload.event WebhookPayload.data WebhookPayload.agent].
  fold (resolveService agent). fold (webhook_line event agent).
  fold (data_line format_dict data).
  destruct (encodable w (webhook_line event agent)); [|reflexivity].
  change (encodable _ (data_line format_dict data))
    with (encodable w (data_line format_dict data)).
  destruct (encodable w (data_line format_dict data)); [|reflexivity].
  cbn [stdout outbox can_encode]. now rewrite <- app_assoc.
Qed.

Lemma resolveService_encodable (agent : str) :
  utf8_encodable (resolveService agent) = true.
Proof.
  unfold resolveService.
  destruct (dict_get_cases planetary_agents agent (lit "CygNus")) as [-> | H].
  - reflexivity.
  - revert H. generalize (dict_get planetary_agents agent (lit "CygNus")).
    apply Forall_forall. vm_compute. repeat constructor.
Qed.

(** The handler as a tree: one post, then one of the two responses is
    built. *)
Lemma generate_tts_tree (text agent : str) :
  generate_tts {| TTSRequest.text := text; TTSRequest.agent := agent |}
  = Post (tts_request text)
      (fun response =>
         if (requests.status_code response =? 200)%Z
         then JSONResponse_init (content (tts_generated agent)) 200
         else JSONResponse_init (content (tts_failed agent)) 500).
Proof. reflexivity. Qed.

(** Only the agent can keep a response from being built. *)
Lemma JSONResponse_init_tts (agent : str) :
  JSONResponse_init (content (tts_generated agent)) 200
  = (if utf8_encodable agent then Ret (tts_generated agent)
     else Raise UnicodeEncodeError)
  /\ JSONResponse_init (content (tts_failed agent)) 500
     = (if utf8_encodable agent then Ret (tts_failed agent)
        else Raise UnicodeEncodeError).
Proof.
  unfold JSONResponse_init, tts_generated, tts_failed.
  cbn [content forallb fst snd].
  rewrite resolveService_encodable.
  change (utf8_encodable (lit "status")) with true.
  change (utf8_encodable (lit "error")) with true.
  change (utf8_encodable (lit "TTS generated")) with true.
  change (utf8_encodable (lit "TTS failed")) with true.
  change (utf8_encodable (lit "agent")) with true.
  change (utf8_encodable (lit "service")) with true.
  cbn [andb]. rewrite !andb_true_r.
  now destruct (utf8_encodable agent).
Qed.

(** One run of the handler: one request leaves, and the answer and the
    agent decide. *)
Lemma run_generate_tts (text agent : str) (net : network) (w : world) :
  run net (generate_tts {| TTSRequest.text := text; TTSRequest.agent := agent |}) w
  = (match net (length (outbox w)) (tts_request text) with
     | Returned response =>
         if utf8_encodable agent
         then Returned (if (requests.status_code response =? 200)%Z
                        then tts_generated agent else tts_failed agent)
         else Raised UnicodeEncodeError
     | Raised e => Raised e
     end,
     {| stdout := stdout w; outbox := outbox w ++ [tts_request text];
        can_encode := can_encode w |}).
Proof.
  rewrite generate_tts_tree. cbn [run].
  destruct (net (length (outbox w)) (tts_request text)) as [response | e];
    [|reflexivity].
  destruct (JSONResponse_init_tts agent) as [-> ->].
  destruct (requests.status_code response =? 200)%Z;
    now destruct (utf8_encodable agent).
Qed.

(** ** [webhook_handler] *)

(** C6, as stated, fails: an event that holds a lone surrogate (the JSON
    escape of one is accepted) cannot be written to a UTF-8 standard
    output, the first [print] raises and the handler hands back no
    acknowledgment. *)
Lemma webhook_handler_surrogate_event :
  ~ (exists d,
        fst (run (net_status 200)
               (webhook_handler (fun _ => lit "{}")
                  {| WebhookPayload.event := lit "push" ++ [0xD800%N];
                     WebhookPayload.data := [];
                     WebhookPayload.agent := lit "Mars" |}) fresh)
        = Returned d).
Proof. rewrite run_webhook_handler. intros [d H]. discriminate H. Qed.

(** C6, amended.  receiveWebhook does not look into the data.  For every
    event, data and agent whose two diagnostics standard output can
    encode, it writes them and returns the fixed acknowledgment, the agent
    as it came and the resolved service; when standard output cannot
    encode one of them, [print] raises UnicodeEncodeError and the handler
    returns nothing.  Nothing is sent over the network either way. *)
Theorem webhook_handler_outcomes (format_dict : dict json -> str)
  (event : str) (data : dict json) (agent : str) (net : network) (w : world) :
  let result :=
    run net
      (webhook_handler format_dict
         {| WebhookPayload.event := event; WebhookPayload.data := data;
            WebhookPayload.agent := agent |}) w in
  let first :=
    antenna ++ lit " Webhook from " ++ resolveService agent
    ++ lit " [" ++ agent ++ lit "]: " ++ event in
  let second := lit "Data: " ++ format_dict data in
  (forallb (can_encode w) first = true ->
   forallb (can_encode w) second = true ->
   result
   = (Returned [ (lit "status", lit "Webhook received");
                 (lit "agent", agent);
                 (lit "service", resolveService agent) ],
      {| stdout := stdout w ++ [first; second];
         outbox := outbox w; can_encode := can_encode w |}))
  /\ (forallb (can_encode w) first && forallb (can_encode w) second = false ->
      fst result = Raised UnicodeEncodeError
      /\ outbox (snd result) = outbox w).
Proof.
  intros result first second. subst result. rewrite run_webhook_handler.
  change (encodable w (webhook_line event agent))
    with (forallb (can_encode w) first).
  change (encodable w (data_line format_dict data))
    with (forallb (can_encode w) second).
  generalize (forallb (can_encode w) first) (forallb (can_encode w) second).
  intros b1 b2. split.
  - now intros -> ->.
  - intros H. destruct b1; [simpl in H; subst b2|]; now split.
Qed.

Lemma webhook_handler_outcomes_witness :
  fst (run net_down
         (webhook_handler (fun _ => lit "{'ref': 'main'}")
            {| WebhookPayload.event := lit "push";
               WebhookPayload.data := [(lit "ref", JStr (lit "main"))];
               WebhookPayload.agent := lit "Mercury" |}) fresh)
  = Returned [ (lit "status", lit "Webhook received");
               (lit "agent", lit "Mercury");
               (lit "service", lit "Push2Repo") ]
  /\ fst (run net_down
            (webhook_handler (fun _ => lit "{}")
               {| WebhookPayload.event := lit "push";
                  WebhookPayload.data := [];
                  WebhookPayload.agent := lit "Mercury" |}) fresh_ascii)
     = Raised UnicodeEncodeError
  /\ fst (run net_down
            (webhook_handler (fun _ => lit "{}")
               {| WebhookPayload.event := lit "push";
                  WebhookPayload.data := [];
                  WebhookPayload.agent := [0xDFFF%N] |}) fresh)
     = Raised UnicodeEncodeError.
Proof.
  split; [|split].
  - rewrite (proj1 (webhook_handler_outcomes (fun _ => lit "{'ref': 'main'}")
                      (lit "push") [(lit "ref", JStr (lit "main"))]
                      (lit "Mercury") net_down fresh));
      reflexivity.
  - apply (proj2 (webhook_handler_outcomes (fun _ => lit "{}")
                    (lit "push") [] (lit "Mercury") net_down fresh_ascii)).
    reflexivity.
  - apply (proj2 (webhook_handler_outcomes (fun _ => lit "{}")
                    (lit "push") [] [0xDFFF%N] net_down fresh)).
    reflexivity.
Defined.

(** ** [generate_tts] *)

(** C3, as stated, fails: when the provider cannot be reached,
    [requests.post] raises, nothing catches it, and the handler hands back
    no response at all, so there is no status 500 and no error payload. *)
Lemma generate_tts_unreachable_provider :
  ~ (exists r,
        fst (run net_down
               (generate_tts {| TTSRequest.text := lit "hello";
                                TTSRequest.agent := lit "Mars" |}) fresh)
        = Returned r
        /\ status_code r = 500%Z
        /\ dict_lookup (content r) (lit "agent") = Some (lit "Mars")
        /\ dict_lookup (content r) (lit "service") = Some (lit "NotebookLM")).
Proof. rewrite run_generate_tts. intros [r [H _]]. discriminate H. Qed.

(** C3, amended.  synthesizeSpeech sends one request.  When the answer has
    status code 200 it returns status 200 and the success payload with the
    agent and the resolved service; when the answer has any other status
    code it returns status 500 and the error payload with the agent and
    the resolved service; both only for an agent without a surrogate: for
    an agent that holds one the response cannot be built once the answer
    is there, and UnicodeEncodeError leaves the handler.  When no answer
    arrives the exception of the external call leaves the handler.  There
    is no other outcome. *)
Theorem generate_tts_outcomes (text agent : str) (net : network) (w : world) :
  let result :=
    run net (generate_tts {| TTSRequest.text := text;
                             TTSRequest.agent := agent |}) w in
  exists rq,
    outbox (snd result) = outbox w ++ [rq]
    /\ (forall response,
           net (length (outbox w)) rq = Returned response ->
           utf8_encodable agent = true ->
           requests.status_code response = 200%Z ->
           fst result
           = Returned {| content := [ (lit "status", lit "TTS generated");
                                      (lit "agent", agent);
                                      (lit "service", resolveService agent) ];
                         status_code := 200 |})
    /\ (forall response,
           net (length (outbox w)) rq = Returned response ->
           utf8_encodable agent = true ->
           requests.status_code response <> 200%Z ->
           fst result
           = Returned {| content := [ (lit "error", lit "TTS failed");
                                      (lit "agent", agent);
                                      (lit "service", resolveService agent) ];
                         status_code := 500 |})
    /\ (forall response,
           net (length (outbox w)) rq = Returned response ->
           utf8_encodable agent = false ->
           fst result = Raised UnicodeEncodeError)
    /\ (forall e,
           net (length (outbox w)) rq = Raised e -> fst result = Raised e).
Proof.
  intros result. subst result. rewrite run_generate_tts. cbn [fst snd outbox].
  exists (tts_request text). split; [reflexivity|].
  split; [|split; [|split]].
  - intros response -> -> Hcode. now rewrite Hcode.
  - intros response -> -> Hcode. apply Z.eqb_neq in Hcode. now rewrite Hcode.
  - now intros response -> ->.
  - now intros e ->.
Qed.

Lemma generate_tts_outcomes_witness :
  fst (run (net_status 200)
         (generate_tts {| TTSRequest.text := lit "hello";
                          TTSRequest.agent := lit "Mars" |}) fresh)
  = Returned {| content := [ (lit "status", lit "TTS generated");
                             (lit "agent", lit "Mars");
                             (lit "service", lit "NotebookLM") ];
                status_code := 200 |}
  /\ fst (run (net_status 204)
            (generate_tts {| TTSRequest.text := lit "hello";
                             TTSRequest.agent := lit "Pluto" |}) fresh)
     = Returned {| content := [ (lit "error", lit "TTS failed");
                                (lit "agent", lit "Pluto");
                                (lit "service", lit "CygNus") ];
                   status_code := 500 |}
  /\ fst (run (net_status 200)
            (generate_tts {| TTSRequest.text := lit "hello";
                             TTSRequest.agent := [0xD83D%N] |}) fresh)
     = Raised UnicodeEncodeError
  /\ fst (run net_down
            (generate_tts {| TTSRequest.text := lit "hello";
                             TTSRequest.agent := lit "Mars" |}) fresh)
     = Raised (RequestException requests.ConnectionError).
Proof.
  split; [|split; [|split]].
  - destruct (generate_tts_outcomes (lit "hello") (lit "Mars")
                (net_status 200) fresh) as [rq [_ [H _]]].
    apply (H {| requests.status_code := 200 |}); reflexivity.
  - destruct (generate_tts_outcomes (lit "hello") (lit "Pluto")
                (net_status 204) fresh) as [rq [_ [_ [H _]]]].
    apply (H {| requests.status_code := 204 |});
      [reflexivity | reflexivity | discriminate].
  - destruct (generate_tts_outcomes (lit "hello") [0xD83D%N]
                (net_status 200) fresh) as [rq [_ [_ [_ [H _]]]]].
    apply (H {| requests.status_code := 200 |}); reflexivity.
  - destruct (generate_tts_outcomes (lit "hello") (lit "Mars")
                net_down fresh) as [rq [_ [_ [_ [_ H]]]]].
    apply H. reflexivity.
Defined.

(** C7. Every synthesizeSpeech invocation sends exactly one request, to
    the text-to-speech endpoint of the configured voice, with the
    configured credential in the [xi-api-key] header and a JSON body that
    carries the input text and the voice settings stability 0.5 and
    similarity boost 0.75. *)
Theorem generate_tts_outbound (text agent : str) (net : network) (w : world) :
  exists rq,
    outbox (snd (run net (generate_tts {| TTSRequest.text := text;
                                          TTSRequest.agent := agent |}) w))
    = outbox w ++ [rq]
    /\ requests.url rq
       = lit "https://api.elevenlabs.io/v1/text-to-speech/" ++ ELEVENLABS_VOICE_ID
    /\ dict_lookup (requests.headers rq) (lit "xi-api-key")
       = Some ELEVENLABS_API_KEY
    /\ json_get (requests.json_body rq) (lit "text") = Some (JStr text)
    /\ exists settings stability similarity_boost,
         json_get (requests.json_body rq) (lit "voice_settings") = Some settings
         /\ json_get settings (lit "stability") = Some (JFloat stability)
         /\ float_value stability = Some (1 # 2)%Q
         /\ json_get settings (lit "similarity_boost")
            = Some (JFloat similarity_boost)
         /\ float_value similarity_boost = Some (3 # 4)%Q.
Proof.
  rewrite run_generate_tts. cbn [snd outbox]. exists (tts_request text).
  repeat split.
  exists (JDict [ (lit "stability", JFloat float_0_5);
                  (lit "similarity_boost", JFloat float_0_75) ]),
    float_0_5, float_0_75.
  repeat split.
Qed.

(** C9. What leaves for the provider does not depend on the agent: with
    the same text, two agents make the handler send the same single
    request (URL, headers and body), and leave the same trace. *)
Theorem generate_tts_outbound_ignores_agent
  (text agent1 agent2 : str) (net : network) (w : world) :
  exists rq,
    outbox (snd (run net (generate_tts {| TTSRequest.text := text;
                                          TTSRequest.agent := agent1 |}) w))
    = outbox w ++ [rq]
    /\ outbox (snd (run net (generate_tts {| TTSRequest.text := text;
                                             TTSRequest.agent := agent2 |}) w))
       = outbox w ++ [rq].
Proof.
  rewrite !run_generate_tts. cbn [snd outbox]. now exists (tts_request text).
Qed.

(** ** The agent and the service in every answer *)

(** C8, as stated, fails for synthesizeSpeech: with the provider out of
    reach the handler hands back no response, hence none with an agent
    field. *)
Lemma generate_tts_no_answer_when_unreachable :
  ~ (exists r,
        fst (run net_down
               (generate_tts {| TTSRequest.text := lit "hello";
                                TTSRequest.agent := lit "Sedna" |}) fresh)
        = Returned r
        /\ dict_lookup (content r) (lit "agent") = Some (lit "Sedna")
        /\ dict_lookup (content r) (lit "service")
           = Some (resolveService (lit "Sedna"))).
Proof. rewrite run_generate_tts. intros [r [H _]]. discriminate H. Qed.

(** C8, amended.  Every response a POST handler returns has the
    request's agent in its agent field and the resolved service in its
    service field, and the handlers return as follows.  parseInstruction
    returns for every request.  routeAvatarAction and receiveWebhook
    return when standard output can encode their diagnostics, and
    otherwise raise UnicodeEncodeError and return no response.
    synthesizeSpeech returns when the external call answers (whatever the
    status code) and the agent holds no surrogate; it raises
    UnicodeEncodeError when the call answers and the agent holds one, and
    the exception of the external call when it does not answer, and
    returns no response then. *)
Theorem handlers_echo_agent_and_service (net : network) (w : world) :
  (forall request,
      exists d,
        fst (run net (parse_instruction request) w) = Returned d
        /\ dict_lookup d (lit "agent") = Some (NLPRequest.agent request)
        /\ dict_lookup d (lit "service")
           = Some (resolveService (NLPRequest.agent request)))
  /\ (forall request,
         let line :=
           lit "Triggering avatar action via "
           ++ resolveService (AvatarRequest.agent request)
           ++ lit ": " ++ AvatarRequest.action request in
         (forallb (can_encode w) line = true ->
          exists d,
            fst (run net (control_avatar request) w) = Returned d
            /\ dict_lookup d (lit "agent") = Some (AvatarRequest.agent request)
            /\ dict_lookup d (lit "service")
               = Some (resolveService (AvatarRequest.agent request)))
         /\ (forallb (can_encode w) line = false ->
             fst (run net (control_avatar request) w)
             = Raised UnicodeEncodeError))
  /\ (forall format_dict request,
         let first :=
           antenna ++ lit " Webhook from "
           ++ resolveService (WebhookPayload.agent request)
           ++ lit " [" ++ WebhookPayload.agent request ++ lit "]: "
           ++ WebhookPayload.event request in
         let second := lit "Data: " ++ format_dict (WebhookPayload.data request) in
         (forallb (can_encode w) first = true ->
          forallb (can_encode w) second = true ->
          exists d,
            fst (run net (webhook_handler format_dict request) w) = Returned d
            /\ dict_lookup d (lit "agent") = Some (WebhookPayload.agent request)
            /\ dict_lookup d (lit "service")
               = Some (resolveService (WebhookPayload.agent request)))
         /\ (forallb (can_encode w) first && forallb (can_encode w) second
             = false ->
             fst (run net (webhook_handler format_dict request) w)
             = Raised UnicodeEncodeError))
  /\ (forall request,
         exists rq,
           outbox (snd (run net (generate_tts request) w)) = outbox w ++ [rq]
           /\ (forall response,
                  net (length (outbox w)) rq = Returned response ->
                  utf8_encodable (TTSRequest.agent request) = true ->
                  exists r,
                    fst (run net (generate_tts request) w) = Returned r
                    /\ dict_lookup (content r) (lit "agent")
                       = Some (TTSRequest.agent request)
                    /\ dict_lookup (content r) (lit "service")
                       = Some (resolveService (TTSRequest.agent request)))
           /\ (forall response,
                  net (length (outbox w)) rq = Returned response ->
                  utf8_encodable (TTSRequest.agent request) = false ->
                  fst (run net (generate_tts request) w)
                  = Raised UnicodeEncodeError)
           /\ (forall e,
                  net (length (outbox w)) rq = Raised e ->
                  fst (run net (generate_tts request) w) = Raised e)).
Proof.
  split; [|split; [|split]].
  - intros request. eexists. split; [reflexivity|]. split; reflexivity.
  - intros [action agent] line. subst line.
    cbn [AvatarRequest.agent AvatarRequest.action].
    rewrite run_control_avatar.
    unfold encodable, avatar_line.
    generalize (forallb (can_encode w)
                  (lit "Triggering avatar action via " ++ resolveService agent
                   ++ lit ": " ++ action)).
    intros b. split; intros ->; [|reflexivity].
    eexists. split; [reflexivity|]. split; reflexivity.
  - intros format_dict [event data agent] first second. subst first second.
    cbn [WebhookPayload.agent WebhookPayload.event WebhookPayload.data].
    rewrite run_webhook_handler. unfold encodable, webhook_line, data_line.
    generalize (forallb (can_encode w)
                  (antenna ++ lit " Webhook from " ++ resolveService agent
                   ++ lit " [" ++ agent ++ lit "]: " ++ event))
               (forallb (can_encode w) (lit "Data: " ++ format_dict data)).
    intros b1 b2. split.
    + intros -> ->. eexists. split; [reflexivity|]. split; reflexivity.
    + intros H. destruct b1; [simpl in H; subst b2|]; reflexivity.
  - intros [text agent]. rewrite run_generate_tts. cbn [fst snd outbox].
    exists (tts_request text). split; [reflexivity|].
    cbn [TTSRequest.agent]. split; [|split].
    + intros response -> ->. eexists. split; [reflexivity|].
      destruct (requests.status_code response =? 200)%Z; split; reflexivity.
    + now intros response -> ->.
    + now intros e ->.
Qed.

Lemma handlers_echo_agent_and_service_witness :
  (exists r,
      fst (run (net_status 503)
             (generate_tts {| TTSRequest.text := lit "hello";
                              TTSRequest.agent := lit "Sedna" |}) fresh)
      = Returned r
      /\ dict_lookup (content r) (lit "agent") = Some (lit "Sedna")
      /\ dict_lookup (content r) (lit "service") = Some (lit "HeylloGen"))
  /\ (exists d,
         fst (run net_down
                (control_avatar {| AvatarRequest.action := lit "wave";
                                   AvatarRequest.agent := lit "Jupiter" |})
                fresh)
         = Returned d
         /\ dict_lookup d (lit "agent") = Some (lit "Jupiter")
         /\ dict_lookup d (lit "service") = Some (lit "CoManDeck"))
  /\ fst (run net_down
            (control_avatar {| AvatarRequest.action := [0xDC00%N];
                               AvatarRequest.agent := lit "Jupiter" |})
            fresh)
     = Raised UnicodeEncodeError.
Proof.
  split; [|split].
  - destruct (proj2 (proj2 (proj2
                (handlers_echo_agent_and_service (net_status 503) fresh)))
                {| TTSRequest.text := lit "hello";
                   TTSRequest.agent := lit "Sedna" |}) as [rq [_ [H _]]].
    apply (H {| requests.status_code := 503 |}); reflexivity.
  - apply (proj1 (proj1 (proj2
              (handlers_echo_agent_and_service net_down fresh))
              {| AvatarRequest.action := lit "wave";
                 AvatarRequest.agent := lit "Jupiter" |})).
    reflexivity.
  - apply (proj2 (proj1 (proj2
              (handlers_echo_agent_and_service net_down fresh))
              {| AvatarRequest.action := [0xDC00%N];
                 AvatarRequest.agent := lit "Jupiter" |})).
    reflexivity.
Defined.

(** * Further properties of the handlers *)

(** ** More on [parse_instruction] *)

Lemma parse_instruction_tree (instruction agent : str) :
  parse_instruction {| NLPRequest.instruction := instruction;
                       NLPRequest.agent := agent |}
  = Ret [ (lit "parsed",
           lit "[" ++ resolveService agent ++ lit "] "
           ++ strip (replace (lit "Animate avatar to") (lit "[ACTION]")
                       instruction));
          (lit "agent", agent);
          (lit "service", resolveService agent) ].
Proof. reflexivity. Qed.

(** X1. An instruction in which the literal does not occur (another
    case, another spacing, a shorter text) is only trimmed. *)
Theorem parse_instruction_without_literal (instruction agent : str) :
  ~ occurs (lit "Animate avatar to") instruction ->
  parse_instruction {| NLPRequest.instruction := instruction;
                       NLPRequest.agent := agent |}
  = Ret [ (lit "parsed",
           lit "[" ++ resolveService agent ++ lit "] " ++ strip instruction);
          (lit "agent", agent);
          (lit "service", resolveService agent) ].
Proof.
  intros H. rewrite parse_instruction_tree.
  now rewrite (replace_absent (lit "[ACTION]") animate_nonempty H).
Qed.

Lemma parse_instruction_without_literal_witness :
  parse_instruction
    {| NLPRequest.instruction := lit " animate avatar to jump, Animate avatar  to ";
       NLPRequest.agent := lit "Mercury" |}
  = Ret [ (lit "parsed",
           lit "[Push2Repo] animate avatar to jump, Animate avatar  to");
          (lit "agent", lit "Mercury");
          (lit "service", lit "Push2Repo") ].
Proof.
  apply (@parse_instruction_without_literal
           (lit " animate avatar to jump, Animate avatar  to ") (lit "Mercury")).
  intros H. apply contains_occurs in H. vm_compute in H. discriminate H.
Defined.

(** X2. The marker is not escaped: an instruction that already holds
    the marker where another holds the literal is parsed to the same
    answer, so the answer does not tell the two apart. *)
Theorem parse_instruction_marker_collision (a b agent : str) :
  parse_instruction
    {| NLPRequest.instruction := a ++ lit "[ACTION]" ++ b;
       NLPRequest.agent := agent |}
  = parse_instruction
      {| NLPRequest.instruction := a ++ lit "Animate avatar to" ++ b;
         NLPRequest.agent := agent |}.
Proof.
  rewrite !parse_instruction_tree.
  rewrite (replace_occurrence _ animate_nonempty _ _ animate_unbordered).
  change (a ++ lit "[ACTION]" ++ b)
    with (a ++ 91%N :: (lit "ACTION" ++ 93%N :: b)).
  assert (Hopen : ~ In 91%N (lit "Animate avatar to"))
    by (vm_compute; intuition discriminate).
  assert (Hclose : ~ In 93%N (lit "Animate avatar to"))
    by (vm_compute; intuition discriminate).
  rewrite (@replace_foreign _ (lit "[ACTION]") _ _ 91%N animate_nonempty Hopen).
  rewrite (@replace_foreign _ (lit "[ACTION]") _ _ 93%N animate_nonempty Hclose).
  reflexivity.
Qed.

(** X3. After the bracketed service and its space, the parsed string
    neither begins nor ends with whitespace, and nothing follows the space
    exactly when the instruction is blank. *)
Theorem parse_instruction_body_trimmed (instruction agent : str) :
  exists body,
    parse_instruction {| NLPRequest.instruction := instruction;
                         NLPRequest.agent := agent |}
    = Ret [ (lit "parsed", lit "[" ++ resolveService agent ++ lit "] " ++ body);
            (lit "agent", agent);
            (lit "service", resolveService agent) ]
    /\ (forall c rest, body = c :: rest -> is_space c = false)
    /\ (forall front c, body = front ++ [c] -> is_space c = false)
    /\ (body = [] <-> Forall (fun c => is_space c = true) instruction).
Proof.
  eexists. split; [apply parse_instruction_tree|]. split; [|split].
  - intros c rest E.
    pose proof (strip_head (replace (lit "Animate avatar to") (lit "[ACTION]")
                              instruction)) as H.
    now rewrite E in H.
  - intros front c E.
    pose proof (strip_last (replace (lit "Animate avatar to") (lit "[ACTION]")
                              instruction)) as H.
    rewrite E, rev_app_distr in H. exact H.
  - rewrite strip_nil_iff. apply replace_spaces_iff;
      solve [apply animate_nonempty | apply action_nonempty
            | vm_compute; reflexivity].
Qed.

(** X4. The parsed string is never longer than the instruction plus the
    bracketed service and its space: at most thirteen characters more. *)
Theorem parse_instruction_length (instruction agent : str) :
  exists parsed,
    parse_instruction {| NLPRequest.instruction := instruction;
                         NLPRequest.agent := agent |}
    = Ret [ (lit "parsed", parsed); (lit "agent", agent);
            (lit "service", resolveService agent) ]
    /\ length parsed <= length instruction + length (resolveService agent) + 3
    /\ length parsed <= length instruction + 13.
Proof.
  eexists. split; [apply parse_instruction_tree|].
  pose proof (resolveService_short agent) as Hs.
  pose proof (strip_length (replace (lit "Animate avatar to") (lit "[ACTION]")
                              instruction)) as H1.
  assert (H2 : length (replace (lit "Animate avatar to") (lit "[ACTION]")
                         instruction) <= length instruction).
  { apply replace_length; [apply animate_nonempty | vm_compute; lia]. }
  rewrite !length_app.
  change (length (lit "[")) with 1. change (length (lit "] ")) with 2.
  lia.
Qed.

(** X5. Surrounding whitespace of the instruction does not count. *)
Theorem parse_instruction_ignores_outer_spaces (w1 instruction w2 agent : str) :
  Forall (fun c => is_space c = true) w1 ->
  Forall (fun c => is_space c = true) w2 ->
  parse_instruction {| NLPRequest.instruction := w1 ++ instruction ++ w2;
                       NLPRequest.agent := agent |}
  = parse_instruction {| NLPRequest.instruction := instruction;
                         NLPRequest.agent := agent |}.
Proof.
  intros H1 H2. rewrite !parse_instruction_tree.
  rewrite (@replace_spaces_l (lit "Animate avatar to") (lit "[ACTION]"));
    try solve [apply animate_nonempty | exact H1 | vm_compute; reflexivity].
  rewrite (@replace_spaces_r (lit "Animate avatar to") (lit "[ACTION]"));
    try solve [apply animate_nonempty | exact H2 | vm_compute; reflexivity].
  now rewrite strip_spaces_around.
Qed.

Lemma parse_instruction_ignores_outer_spaces_witness :
  parse_instruction
    {| NLPRequest.instruction :=
         [0x0A; 0x20]%N ++ lit "Animate avatar to bow" ++ [0x09; 0x3000]%N;
       NLPRequest.agent := lit "Neptune" |}
  = parse_instruction
      {| NLPRequest.instruction := lit "Animate avatar to bow";
         NLPRequest.agent := lit "Neptune" |}.
Proof.
  apply (@parse_instruction_ignores_outer_spaces
           [0x0A; 0x20]%N (lit "Animate avatar to bow") [0x09; 0x3000]%N
           (lit "Neptune")); repeat constructor.
Defined.

(** X6. Parsing is not idempotent: the parsed string of an instruction
    that is not blank, sent again for the same agent, comes back whole
    with the bracketed service a second time in front. *)
Theorem parse_instruction_twice (instruction agent : str) :
  ~ Forall (fun c => is_space c = true) instruction ->
  exists parsed,
    parse_instruction {| NLPRequest.instruction := instruction;
                         NLPRequest.agent := agent |}
    = Ret [ (lit "parsed", parsed); (lit "agent", agent);
            (lit "service", resolveService agent) ]
    /\ parse_instruction {| NLPRequest.instruction := parsed;
                            NLPRequest.agent := agent |}
       = Ret [ (lit "parsed",
                lit "[" ++ resolveService agent ++ lit "] " ++ parsed);
               (lit "agent", agent);
               (lit "service", resolveService agent) ].
Proof.
  intros Hblank. eexists. split; [apply parse_instruction_tree|].
  rewrite parse_instruction_tree.
  rewrite (replace_absent (lit "[ACTION]") animate_nonempty
             (@parsed_leaves_none agent instruction)).
  set (body := strip (replace _ _ instruction)).
  assert (Hbody : body <> []).
  { intros E. apply Hblank. apply strip_nil_iff in E.
    revert E. apply replace_spaces_iff;
      solve [apply animate_nonempty | apply action_nonempty
            | vm_compute; reflexivity]. }
  rewrite strip_fix; [reflexivity | reflexivity |].
  rewrite !app_assoc, rev_app_distr.
  apply head_ok_app_l.
  - intros E. apply Hbody. apply (f_equal (@rev char)) in E.
    now rewrite rev_involutive in E.
  - apply strip_last.
Qed.

Lemma parse_instruction_twice_witness :
  parse_instruction
    {| NLPRequest.instruction := lit "[Mars] Animate avatar to dance";
       NLPRequest.agent := lit "Mars" |}
  = Ret [ (lit "parsed", lit "[NotebookLM] [Mars] [ACTION] dance");
          (lit "agent", lit "Mars"); (lit "service", lit "NotebookLM") ]
  /\ parse_instruction
       {| NLPRequest.instruction := lit "[NotebookLM] [Mars] [ACTION] dance";
          NLPRequest.agent := lit "Mars" |}
     = Ret [ (lit "parsed",
              lit "[NotebookLM] [NotebookLM] [Mars] [ACTION] dance");
             (lit "agent", lit "Mars"); (lit "service", lit "NotebookLM") ].
Proof.
  destruct (@parse_instruction_twice (lit "[Mars] Animate avatar to dance")
              (lit "Mars")) as [parsed [H1 H2]].
  - intros H. inversion H as [|? ? Hc _]. discriminate Hc.
  - injection H1 as <-. split; [reflexivity | exact H2].
Defined.

(** ** The routed service *)

Lemma resolveService_cases (agent : str) :
  In (resolveService agent) (map snd planetary_agents ++ [lit "CygNus"]).
Proof.
  unfold resolveService. apply in_or_app.
  destruct (dict_get_cases planetary_agents agent (lit "CygNus")) as [-> | H];
    [right; now left | now left].
Qed.

(** X7. Whatever the agent, the routed service is one of seven names:
    the six services of the table or the fallback. *)
Theorem resolveService_range (agent : str) :
  In (resolveService agent)
     [ lit "Push2Repo"; lit "NotebookLM"; lit "NLP2CODE"; lit "CoManDeck";
       lit "SLAMAR"; lit "HeylloGen"; lit "CygNus" ].
Proof.
  unfold resolveService.
  destruct (dict_get_cases planetary_agents agent (lit "CygNus")) as [-> | H].
  - do 6 right. now left.
  - change (In (dict_get planetary_agents agent (lit "CygNus"))
              (map snd planetary_agents ++ [lit "CygNus"])).
    apply in_or_app. now left.
Qed.

(** X8. No service name is an agent name: routing the routed service
    again always ends at the fallback. *)
Theorem resolveService_twice (agent : str) :
  resolveService (resolveService agent) = lit "CygNus".
Proof.
  pose proof (resolveService_cases agent) as H. simpl in H.
  repeat (destruct H as [<- | H]; [reflexivity|]). contradiction.
Qed.

(** X13. The agent is matched as it comes: unlike the instruction it is
    not trimmed, so a name with whitespace in front or behind is never a
    registered agent and is routed to the fallback. *)
Theorem resolveService_untrimmed (agent : str) :
  (exists c rest, agent = c :: rest /\ is_space c = true)
  \/ (exists front c, agent = front ++ [c] /\ is_space c = true) ->
  resolveService agent = lit "CygNus".
Proof.
  intros H. unfold resolveService, dict_get.
  rewrite dict_lookup_absent; [reflexivity|]. intros Hin.
  assert (Hok : head_ok agent /\ head_ok (rev agent)).
  { revert Hin. generalize agent. apply Forall_forall.
    vm_compute. repeat constructor. }
  destruct Hok as [Hhead Hlast].
  destruct H as [[c [rest [-> Hc]]] | [front [c [-> Hc]]]].
  - simpl in Hhead. congruence.
  - rewrite rev_app_distr in Hlast. simpl in Hlast. congruence.
Qed.

Lemma resolveService_untrimmed_witness :
  resolveService (lit " Mars") = lit "CygNus"
  /\ resolveService (lit "Mars" ++ [0x0A]%N) = lit "CygNus".
Proof.
  split.
  - apply (@resolveService_untrimmed (lit " Mars")).
    left. exists 32%N, (lit "Mars"). split; reflexivity.
  - apply (@resolveService_untrimmed (lit "Mars" ++ [0x0A]%N)).
    right. exists (lit "Mars"), 10%N. split; reflexivity.
Defined.

(** ** [generate_tts] *)

(** X9. The outcome of synthesizeSpeech tells nothing of the text and
    nothing of the provider's response beyond whether its status code is
    200: two runs for the same agent whose responses agree on that end
    alike, with the same response or, for an agent that holds a surrogate,
    both with UnicodeEncodeError. *)
Theorem generate_tts_answer_ignores_text
  (text1 text2 agent : str) (net1 net2 : network) (w1 w2 : world)
  (response1 response2 : requests.Response) :
  net1 (length (outbox w1)) (tts_request text1) = Returned response1 ->
  net2 (length (outbox w2)) (tts_request text2) = Returned response2 ->
  (requests.status_code response1 = 200%Z <->
   requests.status_code response2 = 200%Z) ->
  fst (run net1 (generate_tts {| TTSRequest.text := text1;
                                 TTSRequest.agent := agent |}) w1)
  = fst (run net2 (generate_tts {| TTSRequest.text := text2;
                                   TTSRequest.agent := agent |}) w2).
Proof.
  intros H1 H2 Hiff. rewrite !run_generate_tts, H1, H2. cbn [fst].
  destruct (utf8_encodable agent); [|reflexivity].
  destruct (Z.eqb_spec (requests.status_code response1) 200) as [E1 | E1];
    destruct (Z.eqb_spec (requests.status_code response2) 200) as [E2 | E2];
    try reflexivity; exfalso; tauto.
Qed.

Lemma generate_tts_answer_ignores_text_witness :
  fst (run (net_status 404)
         (generate_tts {| TTSRequest.text := lit "good morning";
                          TTSRequest.agent := lit "Saturn" |}) fresh)
  = fst (run (net_status 503)
           (generate_tts {| TTSRequest.text := lit "good night";
                            TTSRequest.agent := lit "Saturn" |})
           {| stdout := [lit "earlier text"]; outbox := [];
              can_encode := ascii_strict |}).
Proof.
  apply (@generate_tts_answer_ignores_text
           (lit "good morning") (lit "good night") (lit "Saturn")
           (net_status 404) (net_status 503) fresh
           {| stdout := [lit "earlier text"]; outbox := [];
              can_encode := ascii_strict |}
           {| requests.status_code := 404 |}
           {| requests.status_code := 503 |}).
  - reflexivity.
  - reflexivity.
  - split; discriminate.
Defined.

(** ** A process lifetime *)

Lemma run_bind {A B : Type} (net : network) (p : prog A) (f : A -> prog B)
  (w : world) :
  run net (bind p f) w
  = match run net p w with
    | (Returned a, w') => run net (f a) w'
    | (Raised e, w') => (Raised e, w')
    end.
Proof.
  revert w. induction p as [a | e | line k IH | rq k IH]; intros w; simpl.
  - reflexivity.
  - reflexivity.
  - destruct (encodable w line); [apply IH | reflexivity].
  - destruct (net (length (outbox w)) rq) as [response | e];
      [apply IH | reflexivity].
Qed.

(** One call: what it leaves behind. *)
Lemma run_dispatch (format_dict : dict json -> str) (net : network)
  (c : call) (w : world) :
  let result := run net (dispatch format_dict c) w in
  outbox (snd result) = outbox w ++ map tts_request (tts_texts [c])
  /\ exists texts,
       stdout (snd result) = stdout w ++ texts
       /\ length texts <= diagnostics c.
Proof.
  destruct c as [request | [action agent] | [text agent]
                | [event data agent] |]; cbn zeta; unfold dispatch.
  - simpl. rewrite app_nil_r. split; [reflexivity|].
    exists []. now rewrite app_nil_r.
  - rewrite run_bind, run_control_avatar.
    destruct (encodable w (avatar_line action agent)); simpl;
      rewrite app_nil_r; (split; [reflexivity|]).
    + eexists. split; [reflexivity | simpl; lia].
    + exists []. rewrite app_nil_r. split; [reflexivity | simpl; lia].
  - rewrite run_bind, run_generate_tts.
    destruct (net (length (outbox w)) (tts_request text)) as [response | e];
      [destruct (utf8_encodable agent)|]; simpl;
      (split; [reflexivity|]); exists []; now rewrite app_nil_r.
  - rewrite run_bind, run_webhook_handler.
    destruct (encodable w (webhook_line event agent));
      [destruct (encodable w (data_line format_dict data))|]; simpl;
      rewrite app_nil_r; (split; [reflexivity|]).
    + eexists. split; [reflexivity | simpl; lia].
    + eexists. split; [reflexivity | simpl; lia].
    + exists []. rewrite app_nil_r. split; [reflexivity | simpl; lia].
  - simpl. rewrite app_nil_r. split; [reflexivity|].
    exists []. now rewrite app_nil_r.
Qed.

(** X10. Over a whole process only the speech route reaches the
    provider: the requests that left are one per speech call, in the
    order of the calls, each built from the text of its call alone,
    whether the provider answered, refused or could not be reached. *)
Theorem serve_outbox (format_dict : dict json -> str) (net : network)
  (calls : list call) (w : world) :
  outbox (snd (serve format_dict net calls w))
  = outbox w ++ map tts_request (tts_texts calls).
Proof.
  revert w. induction calls as [|c calls IH]; intros w.
  - simpl. now rewrite app_nil_r.
  - cbn [serve].
    destruct (run_dispatch format_dict net c w) as [Hout _].
    destruct (run net (dispatch format_dict c) w) as [o w1].
    specialize (IH w1).
    destruct (serve format_dict net calls w1) as [os w2].
    cbn [snd] in *. rewrite IH, Hout.
    replace (tts_texts (c :: calls)) with (tts_texts [c] ++ tts_texts calls)
      by (unfold tts_texts; simpl; now rewrite app_nil_r).
    now rewrite map_app, app_assoc.
Qed.

(** X12. Standard output only grows: what was written stays, and a process
    adds at most one text for each avatar call and two for each webhook
    call (fewer when a print raises); the three other routes write
    nothing. *)
Theorem serve_stdout (format_dict : dict json -> str) (net : network)
  (calls : list call) (w : world) :
  exists texts,
    stdout (snd (serve format_dict net calls w)) = stdout w ++ texts
    /\ length texts <= list_sum (map diagnostics calls).
Proof.
  revert w. induction calls as [|c calls IH]; intros w.
  - exists []. simpl. split; [now rewrite app_nil_r | lia].
  - cbn [serve].
    destruct (run_dispatch format_dict net c w) as [_ [l1 [H1 L1]]].
    destruct (run net (dispatch format_dict c) w) as [o w1].
    destruct (IH w1) as [l2 [H2 L2]].
    destruct (serve format_dict net calls w1) as [os w2].
    cbn [snd] in *. exists (l1 ++ l2). split.
    + now rewrite H2, H1, app_assoc.
    + rewrite length_app. simpl. lia.
Qed.
